(** * Verification of [server/scripts/curate_words.py]

    The script curates a word list with a frequency oracle: it loads the
    source words, scores them, splits them at a threshold, and writes an
    answer list, an allowed-guesses list and a CSV report of the rejects.

    Python values are embedded as follows.
    - [str] is a list of Unicode code points ([N]); comparison of strings is
      the code-point lexicographic one, as in CPython.
    - [float] is IEEE binary64, represented by the Standard Library's
      [spec_float]; comparisons are [SFleb] and [SFltb], so that NaN compares
      false with everything, as in Python.
    - The file system is a finite map from paths to the text of the files,
      as [read_text] returns it and [write_text] receives it; the I/O calls
      of the script are recorded, in order, in a log. Reading a missing file
      raises; every path that exists is a text file and writing always
      succeeds, so that failures of the operating system (permissions,
      directories) are outside the model.
    - [str.upper], [str.lower] and [wordfreq.zipf_frequency] are parameters
      of the development: the first two stand for the Unicode case tables,
      the third for the external frequency data. *)

From Stdlib Require Import ZArith NArith Ascii String Decimal SpecFloat.
From Stdlib Require Import Sorting.Sorted DecimalPos DecimalN.
From stdpp Require Import base list gmap sorting.

Local Open Scope N_scope.

(** ** Python strings *)

Abbreviation str := (list N).

(** A Rocq string literal read as a Python string. *)
Fixpoint py (s : string) : str :=
  match s with
  | EmptyString => []
  | String c s' => N_of_ascii c :: py s'
  end.
Arguments py : simpl never.

Module Char.
Definition TAB : N := 9.
Definition LF : N := 10.
Definition CR : N := 13.
Definition SPACE : N := 32.
Definition QUOTE : N := 34.
Definition COMMA : N := 44.
Definition MINUS : N := 45.
Definition DOT : N := 46.
Definition ZERO : N := 48.

Definition between (lo hi c : N) : bool := (lo <=? c) && (c <=? hi).

(** [_PyUnicode_IsWhitespace]: the code points for which [str.isspace]
    holds, which are the ones [str.strip] removes. *)
Definition isspace (c : N) : bool :=
  between 0x09 0x0D c || between 0x1C 0x1F c || (c =? 0x20) ||
  (c =? 0x85) || (c =? 0xA0) || (c =? 0x1680) || between 0x2000 0x200A c ||
  (c =? 0x2028) || (c =? 0x2029) || (c =? 0x202F) || (c =? 0x205F) ||
  (c =? 0x3000).

(** [_PyUnicode_IsLinebreak]: the line boundaries of [str.splitlines]. *)
Definition islinebreak (c : N) : bool :=
  between 0x0A 0x0D c || between 0x1C 0x1E c || (c =? 0x85) ||
  (c =? 0x2028) || (c =? 0x2029).

Definition isdigit (c : N) : bool := between 48 57 c.
End Char.

(** [s.lstrip()], [s.rstrip()] and [s.strip()] with no argument. *)
Fixpoint lstrip (s : str) : str :=
  match s with
  | c :: s' => if Char.isspace c then lstrip s' else s
  | [] => []
  end.

Definition rstrip (s : str) : str := reverse (lstrip (reverse s)).

Definition strip (s : str) : str := rstrip (lstrip s).

(** [s.splitlines()]: [cur] holds the characters of the line being read, in
    reverse. A line break ends the current line, even an empty one; the end
    of the text ends it only when it is not empty. [CR LF] is one break. *)
Fixpoint splitlines_from (cur : str) (s : str) : list str :=
  match s with
  | [] => match cur with [] => [] | _ => [reverse cur] end
  | c :: rest =>
      if Char.islinebreak c then
        match rest with
        | c' :: rest' =>
            if (c =? Char.CR) && (c' =? Char.LF)
            then reverse cur :: splitlines_from [] rest'
            else reverse cur :: splitlines_from [] rest
        | [] => reverse cur :: splitlines_from [] rest
        end
      else splitlines_from (c :: cur) rest
  end.

Definition splitlines (s : str) : list str := splitlines_from [] s.

(** [sep.join(parts)]. *)
Fixpoint join (sep : str) (parts : list str) : str :=
  match parts with
  | [] => []
  | [p] => p
  | p :: ps => p ++ sep ++ join sep ps
  end.

(** [a < b] on strings: the first differing code point decides, a proper
    prefix is smaller. *)
Fixpoint str_lt (a b : str) : bool :=
  match a, b with
  | _, [] => false
  | [], _ :: _ => true
  | x :: a', y :: b' =>
      if x <? y then true else if y <? x then false else str_lt a' b'
  end.

Definition str_le (a b : str) : bool := negb (str_lt b a).

(** Truth value of a string: [if s] holds for a non-empty [s]. *)
Definition str_truthy (s : str) : bool :=
  match s with [] => false | _ => true end.

(** ** [sorted]

    Python's [sorted] is stable and compares with [<] only. On keys that [<]
    orders totally up to equivalence its outcome is determined: the ascending
    arrangement in which equivalent elements keep their order. Insertion
    from the right computes it: the element goes in front of the first one
    that is not smaller than it. *)
Section Sorted.
Context {A K : Type} (lt : K → K → bool) (key : A → K).

Fixpoint insort (x : A) (l : list A) : list A :=
  match l with
  | [] => [x]
  | y :: l' => if lt (key y) (key x) then y :: insort x l' else x :: l
  end.

Definition sorted_by (l : list A) : list A := foldr insort [] l.
End Sorted.

Definition sorted {A} (lt : A → A → bool) (l : list A) : list A :=
  sorted_by lt id l.

(** [a] may stand before [b] in ascending order: the key of [b] is not
    smaller than the key of [a]. *)
Definition not_after {A K} (lt : K → K → bool) (key : A → K) (a b : A) : Prop :=
  lt (key b) (key a) = false.

(** ** Python floats *)

Abbreviation float := spec_float.

(** [a >= b] and [a < b] on floats; both are false when either side is NaN. *)
Definition float_ge (a b : float) : bool := SFleb b a.
Definition float_lt (a b : float) : bool := SFltb a b.

(** [float("-inf")]. *)
Definition neg_inf : float := S754_infinity true.

(** The double nearest to the decimal [digits / 10^scale], as a float
    literal or [float(text)] yields it. Both integers must be below [2^53],
    so that they are doubles and the division rounds the exact quotient. *)
Definition float_of_decimal (digits : Z) (scale : nat) : float :=
  SFdiv 53 1024 (binary_normalize 53 1024 digits 0 false)
                (binary_normalize 53 1024 (10 ^ Z.of_nat scale) 0 false).

Definition is_nan (x : float) : bool :=
  match x with S754_nan => true | _ => false end.

Definition is_finite (x : float) : bool :=
  match x with S754_zero _ | S754_finite _ _ _ => true | _ => false end.

(** The place of a float that is not NaN in the order [SFcompare] decides:
    the sign class first, then the exponent, then the mantissa, the last two
    reversed among the negative numbers. *)
Definition rank (x : float) : Z * Z * Z :=
  match x with
  | S754_infinity true => (-2, 0, 0)
  | S754_finite true m e => (-1, - e, Zneg m)
  | S754_zero _ | S754_nan => (0, 0, 0)
  | S754_finite false m e => (1, e, Zpos m)
  | S754_infinity false => (2, 0, 0)
  end%Z.

Definition lex_compare (p q : Z * Z * Z) : comparison :=
  match (p.1.1 ?= q.1.1)%Z with
  | Eq => match (p.1.2 ?= q.1.2)%Z with
          | Eq => (p.2 ?= q.2)%Z
          | c => c
          end
  | c => c
  end.

(** *** Decimal rendering *)

Fixpoint uint_str (d : Decimal.uint) : str :=
  match d with
  | Nil => []
  | D0 d => 48 :: uint_str d
  | D1 d => 49 :: uint_str d
  | D2 d => 50 :: uint_str d
  | D3 d => 51 :: uint_str d
  | D4 d => 52 :: uint_str d
  | D5 d => 53 :: uint_str d
  | D6 d => 54 :: uint_str d
  | D7 d => 55 :: uint_str d
  | D8 d => 56 :: uint_str d
  | D9 d => 57 :: uint_str d
  end.

(** [str(n)] for a non-negative integer. *)
Definition str_of_N (n : N) : str := uint_str (N.to_uint n).

(** The last [p] decimal digits of [k]. *)
Fixpoint fixed_digits (p : nat) (k : N) : str :=
  match p with
  | O => []
  | S p' => fixed_digits p' (k / 10) ++ [Char.ZERO + k mod 10]
  end.

(** [k / 10^p] written with [p] digits after the point. *)
Definition fixed_point (p : nat) (k : N) : str :=
  str_of_N (k / 10 ^ N.of_nat p) ++
  match p with
  | O => []
  | _ => Char.DOT :: fixed_digits p (k mod 10 ^ N.of_nat p)
  end.

(** The integer nearest to [n / d], ties to even. *)
Definition round_half_even (n d : N) : N :=
  let q := n / d in
  let r := n mod d in
  match 2 * r ?= d with
  | Lt => q
  | Gt => q + 1
  | Eq => if N.even q then q else q + 1
  end.

(** [m * 2^e * 10^p], correctly rounded to an integer. *)
Definition scale10 (p : nat) (m : positive) (e : Z) : N :=
  match e with
  | Zneg k => round_half_even (Npos m * 10 ^ N.of_nat p) (2 ^ Npos k)
  | Z0 => Npos m * 10 ^ N.of_nat p
  | Zpos k => Npos m * 2 ^ Npos k * 10 ^ N.of_nat p
  end.

Definition sign_str (s : bool) : str := if s then [Char.MINUS] else [].

(** [f"{x:.pf}"]: fixed-point notation with [p] digits after the point,
    correctly rounded (the exact binary value decides, ties go to even). *)
Definition format_f (p : nat) (x : float) : str :=
  match x with
  | S754_nan => py "nan"
  | S754_infinity s => sign_str s ++ py "inf"
  | S754_zero s => sign_str s ++ fixed_point p 0
  | S754_finite s m e => sign_str s ++ fixed_point p (scale10 p m e)
  end.

(** The text after the first decimal point of [t], if there is one. *)
Fixpoint after_point (t : str) : option str :=
  match t with
  | [] => None
  | c :: t' => if c =? Char.DOT then Some t' else after_point t'
  end.

(** [t] has a decimal point followed by exactly [p] digits and nothing else. *)
Definition has_decimals (p : nat) (t : str) : bool :=
  match after_point t with
  | Some frac => (length frac =? p)%nat && forallb Char.isdigit frac
  | None => false
  end.

(** ** [csv.writer], default ([excel]) dialect

    Delimiter [,], quote character, minimal quoting, doubled quotes inside a
    quoted field, and CR LF after every row. *)
Module Csv.
Definition lineterminator : str := [Char.CR; Char.LF].

Definition special (c : N) : bool :=
  (c =? Char.COMMA) || (c =? Char.QUOTE) || (c =? Char.CR) || (c =? Char.LF).

Fixpoint escape (field : str) : str :=
  match field with
  | [] => []
  | c :: field' =>
      if c =? Char.QUOTE then Char.QUOTE :: Char.QUOTE :: escape field'
      else c :: escape field'
  end.

Definition render_field (field : str) : str :=
  if existsb special field
  then Char.QUOTE :: escape field ++ [Char.QUOTE]
  else field.

(** The text [writer.writerow(row)] sends to the file. A row made of one
    empty field is written as an empty quoted field. *)
Definition render_row (row : list str) : str :=
  match row with
  | [[]] => [Char.QUOTE; Char.QUOTE] ++ lineterminator
  | _ => join [Char.COMMA] (render_field <$> row) ++ lineterminator
  end.
End Csv.

(** ** The world the script runs in *)

Abbreviation Path := (list N).

Inductive event :=
  | EvOracle (word lang : str)          (* zipf_frequency(word, lang) *)
  | EvWriteText (path : Path) (data : str)  (* path.write_text(data) *)
  | EvOpenW (path : Path)               (* path.open("w") *)
  | EvWriteRow (path : Path) (line : str)   (* a row sent to an open file *)
  | EvPrint (line : str).               (* print(line) *)

Record world := World {
  files : gmap Path str;
  log : list event
}.

Inductive exn :=
  | SystemExit (msg : str)
  | FileNotFoundError (path : Path).

Inductive result (A : Type) :=
  | Ok (a : A)
  | Raise (e : exn).
Arguments Ok {A} a.
Arguments Raise {A} e.

(** A computation reads and changes the world and returns or raises. *)
Definition M (A : Type) : Type := world → result A * world.

#[global] Instance M_ret : MRet M := λ A a σ, (Ok a, σ).

#[global] Instance M_bind : MBind M := λ A B f c σ,
  match c σ with
  | (Ok a, σ') => f a σ'
  | (Raise e, σ') => (Raise e, σ')
  end.

Definition raise {A} (e : exn) : M A := λ σ, (Raise e, σ).

Definition emit (ev : event) (σ : world) : world :=
  World (files σ) (log σ ++ [ev]).

(** The events a run that started in [σ] and ended in [σ'] added to the log. *)
Definition events_since (σ σ' : world) : list event :=
  drop (length (log σ)) (log σ').

(** The events of a reject report: opening the file and writing a row. *)
Definition is_report_event (ev : event) : bool :=
  match ev with
  | EvOpenW _ | EvWriteRow _ _ => true
  | _ => false
  end.

(** The exit status of the process: an uncaught exception, [SystemExit] with
    a message included, ends it with status 1. *)
Definition exit_status {A} (r : result A) : Z :=
  match r with Ok _ => 0%Z | Raise _ => 1%Z end.

Definition path_exists (path : Path) : M bool := λ σ,
  (Ok (bool_decide (is_Some (files σ !! path))), σ).

Definition read_text (path : Path) : M str := λ σ,
  match files σ !! path with
  | Some text => (Ok text, σ)
  | None => (Raise (FileNotFoundError path), σ)
  end.

Definition write_text (path : Path) (data : str) : M unit := λ σ,
  (Ok tt, emit (EvWriteText path data) (World (<[path := data]> (files σ)) (log σ))).

(** [path.open("w")] creates or truncates the file; the handle is the path. *)
Definition open_w (path : Path) : M Path := λ σ,
  (Ok path, emit (EvOpenW path) (World (<[path := []]> (files σ)) (log σ))).

Definition csv_writerow (fh : Path) (row : list str) : M unit := λ σ,
  let line := Csv.render_row row in
  (Ok tt, emit (EvWriteRow fh line)
            (World (<[fh := default [] (files σ !! fh) ++ line]> (files σ)) (log σ))).

Definition print (line : str) : M unit := λ σ, (Ok tt, emit (EvPrint line) σ).

(** [for x in l: body(x)]. *)
Fixpoint for_each {A} (body : A → M unit) (l : list A) : M unit :=
  match l with
  | [] => mret tt
  | x :: l' => body x;; for_each body l'
  end.

(** ** The script *)

(** [@dataclass(frozen=True) class WordScore]. *)
Record WordScore := mkWordScore {
  word : str;
  freq : float
}.

(** The parsed command line. [output] and [guesses_threshold] default to
    [None]; the other options always hold a value. *)
Module Args.
Record t := mk {
  source : Path;
  output : option Path;
  rejects : Path;
  guesses_output : Path;
  threshold : float;
  guesses_threshold : option float
}.

(** The defaults of the parser. *)
Definition defaults : t := {|
  source := py "server/allowed_guesses.txt";
  output := None;
  rejects := py "server/rejected_words.csv";
  guesses_output := py "server/allowed_guesses.txt";
  threshold := float_of_decimal 34 1;
  guesses_threshold := None
|}.
End Args.

(** Truth value of a [Path] object: the class defines neither [__bool__]
    nor [__len__], so every path is true. *)
Definition path_truthy (p : Path) : bool := true.

(** [args.output or source_path]. *)
Definition or_path (o : option Path) (p : Path) : Path :=
  match o with
  | Some q => if path_truthy q then q else p
  | None => p
  end.

(** [[item for item in scored if item.freq >= t]]. *)
Definition at_least (t : float) (scored : list WordScore) : list WordScore :=
  List.filter (λ item, float_ge (freq item) t) scored.

(** [[item for item in scored if item.freq < t]]. *)
Definition below (t : float) (scored : list WordScore) : list WordScore :=
  List.filter (λ item, float_lt (freq item) t) scored.

(** Truth value of a list: [if dropped] holds for a non-empty list. *)
Definition list_truthy {A} (l : list A) : bool :=
  match l with [] => false | _ => true end.

Section Script.
(** [str.upper], [str.lower] and [wordfreq.zipf_frequency]. *)
Variable upper lower : str → str.
Variable zipf_frequency : str → str → float.

Definition call_zipf_frequency (w lang : str) : M float := λ σ,
  (Ok (zipf_frequency w lang), emit (EvOracle w lang) σ).

(** [[w.strip().upper() for w in text.splitlines() if w.strip()]]. *)
Definition load_text (text : str) : list str :=
  (λ w, upper (strip w)) <$>
    List.filter (λ w, str_truthy (strip w)) (splitlines text).

Definition load_words (path : Path) : M (list str) :=
  text ← read_text path;
  mret (load_text text).

Definition save_words (path : Path) (words : list str) : M unit :=
  write_text path (join [Char.LF] words ++ [Char.LF]).

Definition export_rejects (path : Path) (rejects : list WordScore) : M unit :=
  fh ← open_w path;
  csv_writerow fh [py "word"; py "zipf_frequency"];;
  for_each (λ item, csv_writerow fh [word item; format_f 3 (freq item)]) rejects.

Fixpoint score_loop (words : list str) (scored : list WordScore)
  : M (list WordScore) :=
  match words with
  | [] => mret scored
  | w :: words' =>
      f ← call_zipf_frequency (lower w) (py "en");
      score_loop words' (scored ++ [mkWordScore w f])
  end.

Definition score_words (words : list str) : M (list WordScore) :=
  score_loop words [].

(** The entry the Scorer makes for one word, and the Scored Set of a
    sequence of words, as values. *)
Definition score (w : str) : WordScore :=
  mkWordScore w (zipf_frequency (lower w) (py "en")).

Definition scored_set (words : list str) : list WordScore := score <$> words.

(** What a run leaves in the log: the oracle calls of the Scorer, the rows
    of a reject report and, with them, the text of the report. *)
Definition oracle_events (words : list str) : list event :=
  (λ w, EvOracle (lower w) (py "en")) <$> words.

Definition reject_rows (rejects : list WordScore) : list (list str) :=
  [py "word"; py "zipf_frequency"] ::
  ((λ item, [word item; format_f 3 (freq item)]) <$> rejects).

Definition reject_events (path : Path) (rejects : list WordScore) : list event :=
  EvOpenW path ::
  ((λ row, EvWriteRow path (Csv.render_row row)) <$> reject_rows rejects).

Definition reject_text (rejects : list WordScore) : str :=
  concat (Csv.render_row <$> reject_rows rejects).

Definition summary_events (args : Args.t) (scored : list WordScore) : list event :=
  let threshold := Args.threshold args in
  [ EvPrint (py "Words loaded: " ++ str_of_N (N.of_nat (length scored)));
    EvPrint (py "Kept: " ++
             str_of_N (N.of_nat (length (at_least threshold scored))) ++
             py " (threshold >= " ++ format_f 2 threshold ++ py ")");
    EvPrint (py "Removed: " ++
             str_of_N (N.of_nat (length (below threshold scored))) ++
             py " (details: " ++ Args.rejects args ++ py ")");
    EvPrint (py "Wrote curated list to: " ++
             or_path (Args.output args) (Args.source args)) ].

Definition main (args : Args.t) : M unit :=
  let source_path := Args.source args in
  found ← path_exists source_path;
  if negb found then
    raise (SystemExit (py "Source file not found: " ++ source_path))
  else
    words ← load_words source_path;
    scored ← score_words words;
    let threshold := Args.threshold args in
    let kept := at_least threshold scored in
    let dropped := below threshold scored in
    let output_path := or_path (Args.output args) source_path in
    save_words output_path (sorted str_lt (word <$> kept));;
    let guesses_threshold :=
      match Args.guesses_threshold args with
      | None => neg_inf
      | Some g => g
      end in
    (if path_truthy (Args.guesses_output args) then
       let allowed := sorted str_lt (word <$> at_least guesses_threshold scored) in
       save_words (Args.guesses_output args) allowed
     else mret tt);;
    (if list_truthy dropped then
       export_rejects (Args.rejects args) (sorted_by float_lt freq dropped)
     else mret tt);;
    print (py "Words loaded: " ++ str_of_N (N.of_nat (length scored)));;
    print (py "Kept: " ++ str_of_N (N.of_nat (length kept)) ++
           py " (threshold >= " ++ format_f 2 threshold ++ py ")");;
    print (py "Removed: " ++ str_of_N (N.of_nat (length dropped)) ++
           py " (details: " ++ Args.rejects args ++ py ")");;
    print (py "Wrote curated list to: " ++ output_path).
End Script.

(** ** A test double for the oracle, and the ASCII part of the case tables *)

Definition ascii_upper (s : str) : str :=
  (λ c, if Char.between 97 122 c then c - 32 else c) <$> s.

Definition ascii_lower (s : str) : str :=
  (λ c, if Char.between 65 90 c then c + 32 else c) <$> s.

Definition str_eqb (a b : str) : bool := bool_decide (a = b).

(** The scores of Scenario A; every other word scores zero. *)
Definition scenario_zipf (w lang : str) : float :=
  if str_eqb w (py "apple") then float_of_decimal 532 2
  else if str_eqb w (py "berry") then float_of_decimal 410 2
  else S754_zero false.

Definition scenario_source : str :=
  py "apple" ++ [Char.LF] ++ py " Berry " ++ [Char.CR; Char.LF; Char.LF] ++ py "zyzzx".

Definition scenario_args : Args.t := {|
  Args.source := py "words.txt";
  Args.output := Some (py "answers.txt");
  Args.rejects := py "rejects.csv";
  Args.guesses_output := py "guesses.txt";
  Args.threshold := float_of_decimal 34 1;
  Args.guesses_threshold := None
|}.

Definition scenario_world : world :=
  World {[ py "words.txt" := scenario_source ]} [].

(** The same run with a threshold no word reaches. *)
Definition strict_args : Args.t := {|
  Args.source := py "words.txt";
  Args.output := Some (py "answers.txt");
  Args.rejects := py "rejects.csv";
  Args.guesses_output := py "guesses.txt";
  Args.threshold := float_of_decimal 9 0;
  Args.guesses_threshold := Some (float_of_decimal 9 0)
|}.

(** A source with a repeated word, padding and a blank line. *)
Definition repeated_source : str :=
  py "berry" ++ [Char.LF] ++ py "  apple" ++ [Char.TAB; Char.LF; Char.SPACE; Char.LF] ++
  py "berry" ++ [Char.LF].

Definition repeated_world : world :=
  World {[ py "words.txt" := repeated_source ]} [].

(** A world without files. *)
Definition empty_world : world := World ∅ [].

(** The default source file holding the words of the scenario. *)
Definition default_world : world :=
  World {[ Args.source Args.defaults := scenario_source ]} [].

(** ** Further inputs *)

(** Curating the source in place: [output] unset, the other paths apart. *)
Definition curate_args : Args.t := {|
  Args.source := py "words.txt";
  Args.output := None;
  Args.rejects := py "rejects.csv";
  Args.guesses_output := py "guesses.txt";
  Args.threshold := float_of_decimal 34 1;
  Args.guesses_threshold := None
|}.

(** The words of the scenario in another order. *)
Definition shuffled_source : str :=
  py "zyzzx" ++ [Char.LF] ++ py "apple" ++ [Char.LF] ++ py "berry" ++ [Char.LF].

Definition shuffled_world : world :=
  World {[ py "words.txt" := shuffled_source ]} [EvPrint (py "earlier")].

(** A source of blank lines. *)
Definition blank_source : str := [Char.SPACE; Char.LF; Char.TAB; Char.CR; Char.LF].

Definition blank_world : world :=
  World {[ py "words.txt" := blank_source ]} [].

(** ** Notions used to state further properties *)

(** A word the Loader reads back as it is: not empty, without a line
    boundary, without whitespace at either end, and unchanged by [upper]. *)
Definition normal (upper : str → str) (w : str) : bool :=
  str_truthy w && negb (existsb Char.islinebreak w) &&
  bool_decide (strip w = w) && bool_decide (upper w = w).

(** The calls of [write_text]. *)
Definition is_write_text (ev : event) : bool :=
  match ev with EvWriteText _ _ => true | _ => false end.

Definition is_oracle_event (ev : event) : bool :=
  match ev with EvOracle _ _ => true | _ => false end.

Definition is_print (ev : event) : bool :=
  match ev with EvPrint _ => true | _ => false end.

(** The path a file event goes to. *)
Definition event_path (ev : event) : option Path :=
  match ev with
  | EvWriteText p _ | EvOpenW p | EvWriteRow p _ => Some p
  | EvOracle _ _ | EvPrint _ => None
  end.

(** The number a string of decimal digits denotes. *)
Definition digits_value (s : str) : N :=
  fold_left (λ acc c, 10 * acc + (c - Char.ZERO)) s 0.

(** The sign of a float: true for the negative ones and for minus zero. *)
Definition sign_bit (x : float) : bool :=
  match x with
  | S754_zero s | S754_infinity s | S754_finite s _ _ => s
  | S754_nan => false
  end.

(** The absolute value of a finite float as a fraction [(n, d)]. *)
Definition magnitude (x : float) : N * N :=
  match x with
  | S754_finite _ m (Zneg k) => (Npos m, 2 ^ Npos k)
  | S754_finite _ m (Zpos k) => (Npos m * 2 ^ Npos k, 1)
  | S754_finite _ m Z0 => (Npos m, 1)
  | _ => (0, 1)
  end.

(** * Properties *)

(** ** Strings *)

Lemma lstrip_split s :
  ∃ pre, s = pre ++ lstrip s ∧ forallb Char.isspace pre = true.
Proof.
  induction s as [|c s [pre [E F]]]; simpl.
  - by exists [].
  - destruct (Char.isspace c) eqn:Hc.
    + exists (c :: pre). simpl. rewrite Hc, F. by rewrite <- E.
    + by exists [].
Qed.

Lemma lstrip_head s c s' : lstrip s = c :: s' → Char.isspace c = false.
Proof.
  induction s as [|d s IH]; simpl; [done|].
  destruct (Char.isspace d) eqn:Hd; [done|]. by intros [= -> _].
Qed.

Lemma lstrip_nil s : lstrip s = [] ↔ forallb Char.isspace s = true.
Proof.
  induction s as [|c s IH]; simpl; [done|].
  destruct (Char.isspace c); simpl; [done|]. split; done.
Qed.

Lemma lstrip_idem s : lstrip (lstrip s) = lstrip s.
Proof.
  destruct (lstrip s) as [|c s'] eqn:E; [done|].
  simpl. by rewrite (lstrip_head _ _ _ E).
Qed.

Lemma forallb_reverse {A} (f : A → bool) l :
  forallb f (reverse l) = forallb f l.
Proof.
  induction l as [|x l IH]; [done|].
  rewrite reverse_cons, forallb_app, IH. simpl. destruct (f x), (forallb f l); done.
Qed.

Lemma rstrip_split s :
  ∃ post, s = rstrip s ++ post ∧ forallb Char.isspace post = true.
Proof.
  unfold rstrip. destruct (lstrip_split (reverse s)) as [pre [E F]].
  exists (reverse pre). split.
  - rewrite <- reverse_app, <- E. by rewrite reverse_involutive.
  - by rewrite forallb_reverse.
Qed.

Lemma rstrip_last s s' c : rstrip s = s' ++ [c] → Char.isspace c = false.
Proof.
  unfold rstrip. intros E.
  apply (f_equal reverse) in E. rewrite reverse_involutive, reverse_app in E.
  by apply lstrip_head in E.
Qed.

Lemma rstrip_nil s : rstrip s = [] ↔ forallb Char.isspace s = true.
Proof.
  unfold rstrip. rewrite <- (forallb_reverse _ s), <- lstrip_nil.
  split; intros E.
  - apply (f_equal reverse) in E. by rewrite reverse_involutive in E.
  - by rewrite E.
Qed.

(** What [rstrip] leaves of a string with no leading whitespace still has
    no leading whitespace. *)
Lemma rstrip_head s c s' :
  rstrip s = c :: s' → (∀ d s0, s = d :: s0 → Char.isspace d = false) →
  Char.isspace c = false.
Proof.
  intros E Hs. destruct (rstrip_split s) as [post [Es F]].
  rewrite E in Es. simpl in Es. by apply (Hs c (s' ++ post)).
Qed.

(** [strip] cuts a run of whitespace off each end, and what is left neither
    starts nor ends with whitespace. *)
Lemma strip_split s :
  ∃ pre post, s = pre ++ strip s ++ post ∧
    forallb Char.isspace pre = true ∧ forallb Char.isspace post = true.
Proof.
  unfold strip. destruct (lstrip_split s) as [pre [E F]].
  destruct (rstrip_split (lstrip s)) as [post [E' F']].
  exists pre, post. split; [|done]. by rewrite <- E', <- E.
Qed.

Lemma strip_head s c s' : strip s = c :: s' → Char.isspace c = false.
Proof.
  unfold strip. intros E. apply (rstrip_head _ _ _ E).
  intros d s0 Hd. by apply lstrip_head in Hd.
Qed.

Lemma strip_last s s' c : strip s = s' ++ [c] → Char.isspace c = false.
Proof. unfold strip. apply rstrip_last. Qed.

Lemma strip_nil s : strip s = [] ↔ forallb Char.isspace s = true.
Proof.
  unfold strip. rewrite rstrip_nil. rewrite <- !lstrip_nil. by rewrite lstrip_idem.
Qed.

Lemma str_truthy_strip s :
  str_truthy (strip s) = negb (forallb Char.isspace s).
Proof.
  destruct (forallb Char.isspace s) eqn:F.
  - apply strip_nil in F. by rewrite F.
  - destruct (strip s) eqn:E; [|done].
    apply strip_nil in E. congruence.
Qed.

(** The lines of a text hold its characters other than line breaks, in
    order, and no line holds a line break. *)
Lemma splitlines_from_chars n cur s :
  (length s ≤ n)%nat →
  concat (splitlines_from cur s)
    = reverse cur ++ List.filter (λ c, negb (Char.islinebreak c)) s.
Proof.
  revert cur s. induction n as [|n IH]; intros cur [|c rest] Hn;
    simpl in Hn; try lia.
  - destruct cur; simpl; by rewrite ?app_nil_r.
  - destruct cur; simpl; by rewrite ?app_nil_r.
  - simpl. destruct (Char.islinebreak c) eqn:Hc; simpl.
    + destruct rest as [|c' rest'].
      * simpl. by rewrite app_nil_r.
      * destruct ((c =? Char.CR) && (c' =? Char.LF)) eqn:Hcr.
        -- apply andb_true_iff in Hcr as [_ ->%N.eqb_eq].
           simpl. by rewrite IH by (simpl in Hn; lia).
        -- cbn [concat]. by rewrite IH by lia.
    + rewrite IH by lia. rewrite reverse_cons, <- app_assoc. done.
Qed.

Lemma splitlines_chars s :
  concat (splitlines s) = List.filter (λ c, negb (Char.islinebreak c)) s.
Proof. unfold splitlines. by rewrite (splitlines_from_chars (length s)). Qed.

Lemma existsb_reverse {A} (f : A → bool) l :
  existsb f (reverse l) = existsb f l.
Proof.
  induction l as [|x l IH]; [done|].
  rewrite reverse_cons, existsb_app, IH. simpl.
  by rewrite orb_false_r, orb_comm.
Qed.

Lemma splitlines_from_no_break n cur s :
  (length s ≤ n)%nat →
  existsb Char.islinebreak cur = false →
  Forall (λ l, existsb Char.islinebreak l = false) (splitlines_from cur s).
Proof.
  revert cur s. induction n as [|n IH]; intros cur s Hn Hcur.
  - destruct s; [|simpl in Hn; lia].
    destruct cur; simpl; repeat constructor. by rewrite existsb_reverse.
  - assert (existsb Char.islinebreak (reverse cur) = false) as Hrev
      by (by rewrite existsb_reverse).
    destruct s as [|c rest].
    { destruct cur; simpl; repeat constructor. done. }
    simpl in Hn. simpl. destruct (Char.islinebreak c) eqn:Hc.
    + destruct rest as [|c' rest'].
      * repeat constructor; done.
      * destruct ((c =? Char.CR) && (c' =? Char.LF)).
        -- constructor; [done|]. apply IH; [simpl in Hn; lia|done].
        -- constructor; [done|]. apply IH; [lia|done].
    + apply IH; [lia|]. simpl. by rewrite Hc.
Qed.

Lemma splitlines_no_break s :
  Forall (λ l, existsb Char.islinebreak l = false) (splitlines s).
Proof. by apply (splitlines_from_no_break (length s)). Qed.

(** ** [sorted] *)

Lemma Sorted_mono {A} (R Q : A → A → Prop) l :
  (∀ a b, a ∈ l → b ∈ l → R a b → Q a b) → Sorted R l → Sorted Q l.
Proof.
  intros HRQ Hs. induction Hs as [|x l Hl IH Hx]; constructor.
  - apply IH. intros a b Ha Hb. apply HRQ; by right.
  - destruct Hx as [|y l Hxy]; constructor.
    apply HRQ; [by left|by right; left|done].
Qed.

Section SortedFacts.
Context {A K : Type} (lt : K → K → bool) (key : A → K).

Lemma insort_perm x l : insort lt key x l ≡ₚ x :: l.
Proof.
  induction l as [|y l IH]; simpl; [done|].
  destruct (lt (key y) (key x)); [|done].
  rewrite IH. apply Permutation_swap.
Qed.

Lemma sorted_by_perm l : sorted_by lt key l ≡ₚ l.
Proof.
  induction l as [|x l IH]; simpl; [done|].
  fold (sorted_by lt key l). by rewrite insort_perm, IH.
Qed.

Hypothesis lt_asym : ∀ x y, lt x y = true → lt y x = false.

Lemma insort_HdRel z x l :
  not_after lt key z x → HdRel (not_after lt key) z l →
  HdRel (not_after lt key) z (insort lt key x l).
Proof.
  intros Hzx Hl. destruct l as [|y l]; simpl; [by constructor|].
  destruct (lt (key y) (key x)); constructor; [|done].
  by inversion Hl.
Qed.

Lemma insort_Sorted x l :
  Sorted (not_after lt key) l → Sorted (not_after lt key) (insort lt key x l).
Proof.
  induction 1 as [|y l Hl IH Hy]; simpl; [by repeat constructor|].
  destruct (lt (key y) (key x)) eqn:E.
  - constructor; [done|]. apply insort_HdRel; [|done].
    by apply lt_asym.
  - constructor; [by constructor|]. by constructor.
Qed.

Lemma sorted_by_Sorted l : Sorted (not_after lt key) (sorted_by lt key l).
Proof.
  induction l as [|x l IH]; simpl; [constructor|]. by apply insort_Sorted.
Qed.
End SortedFacts.

(** Stability: elements none of which is smaller than another one keep
    their order. *)
Lemma insort_filter {A K} (lt : K → K → bool) (key : A → K) (P : A → bool) x l :
  (∀ a b, P a = true → P b = true → lt (key a) (key b) = false) →
  List.filter P (insort lt key x l) = List.filter P (x :: l).
Proof.
  intros HP. induction l as [|y l IH]; [done|].
  simpl insort. destruct (lt (key y) (key x)) eqn:E; [|done].
  simpl in *. rewrite IH.
  destruct (P x) eqn:Hx, (P y) eqn:Hy; try done.
  rewrite (HP y x Hy Hx) in E. done.
Qed.

Lemma sorted_by_stable {A K} (lt : K → K → bool) (key : A → K) (P : A → bool) l :
  (∀ a b, P a = true → P b = true → lt (key a) (key b) = false) →
  List.filter P (sorted_by lt key l) = List.filter P l.
Proof.
  intros HP. induction l as [|x l IH]; [done|].
  simpl sorted_by. fold (sorted_by lt key l).
  rewrite insort_filter by done. simpl. by rewrite IH.
Qed.

(** *** The order of strings *)

Lemma str_lt_irrefl a : str_lt a a = false.
Proof.
  induction a as [|x a IH]; simpl; [done|].
  by rewrite N.ltb_irrefl.
Qed.

Lemma str_lt_asym a b : str_lt a b = true → str_lt b a = false.
Proof.
  revert b. induction a as [|x a IH]; intros [|y b]; simpl; try done.
  destruct (N.ltb_spec x y), (N.ltb_spec y x); try done; try lia.
  apply IH.
Qed.

Lemma str_lt_trans a b c :
  str_lt a b = true → str_lt b c = true → str_lt a c = true.
Proof.
  revert b c. induction a as [|x a IH]; intros [|y b] [|z c]; simpl; try done.
  destruct (N.ltb_spec x y), (N.ltb_spec y x), (N.ltb_spec y z),
    (N.ltb_spec z y), (N.ltb_spec x z), (N.ltb_spec z x);
    try done; try lia.
  apply IH.
Qed.

(** The order is total: two strings neither of which is smaller are equal. *)
Lemma str_lt_total a b : str_lt a b = false → str_lt b a = false → a = b.
Proof.
  revert b. induction a as [|x a IH]; intros [|y b]; simpl; try done.
  destruct (N.ltb_spec x y), (N.ltb_spec y x); try done.
  intros. f_equal; [lia|]. by apply IH.
Qed.

Lemma str_le_spec a b : str_le a b = true ↔ str_lt a b = true ∨ a = b.
Proof.
  unfold str_le. rewrite negb_true_iff. split.
  - intros H. destruct (str_lt a b) eqn:E; [by left|]. right.
    by apply str_lt_total.
  - intros [H| ->]; [by apply str_lt_asym|apply str_lt_irrefl].
Qed.

#[global] Instance str_le_trans : Transitive (λ a b, str_le a b = true).
Proof.
  intros a b c. rewrite !str_le_spec.
  intros [H1| ->] [H2| ->]; eauto using str_lt_trans.
Qed.

#[global] Instance str_le_antisym : AntiSymm (=) (λ a b, str_le a b = true).
Proof.
  intros a b. rewrite !str_le_spec.
  intros [H1| ->] [H2| E]; try done.
  apply str_lt_asym in H1. congruence.
Qed.

Lemma sorted_str_Sorted l : Sorted (λ a b, str_le a b = true) (sorted str_lt l).
Proof.
  unfold sorted.
  eapply Sorted_mono; [|apply (sorted_by_Sorted str_lt id), str_lt_asym].
  intros a b _ _. unfold not_after, str_le. simpl. by intros ->.
Qed.

Lemma sorted_str_perm l : sorted str_lt l ≡ₚ l.
Proof. apply sorted_by_perm. Qed.

(** Any ascending arrangement of the words is the one [sorted] returns. *)
Lemma sorted_str_unique l l' :
  l' ≡ₚ l → Sorted (λ a b, str_le a b = true) l' → l' = sorted str_lt l.
Proof.
  intros Hp Hs.
  apply (Sorted_unique (λ a b, str_le a b = true)); [done|apply sorted_str_Sorted|].
  by rewrite sorted_str_perm.
Qed.

(** ** Floats *)

Lemma SFcompare_rank a b :
  is_nan a = false → is_nan b = false →
  SFcompare a b = Some (lex_compare (rank a) (rank b)).
Proof.
  destruct a as [[]|[]| |[] m1 e1], b as [[]|[]| |[] m2 e2]; try done;
    intros _ _; unfold lex_compare; simpl; f_equal.
  - rewrite Z.compare_opp. destruct (Z.compare_spec e1 e2) as [->| |].
    + by rewrite Z.compare_refl.
    + by rewrite (proj2 (Z.compare_gt_iff e2 e1)) by lia.
    + by rewrite (proj2 (Z.compare_lt_iff e2 e1)) by lia.
Qed.

Lemma lex_compare_spec p q :
  match lex_compare p q with
  | Lt => (p.1.1 < q.1.1 ∨ p.1.1 = q.1.1 ∧ (p.1.2 < q.1.2 ∨ p.1.2 = q.1.2 ∧ p.2 < q.2))%Z
  | Eq => p = q
  | Gt => (q.1.1 < p.1.1 ∨ p.1.1 = q.1.1 ∧ (q.1.2 < p.1.2 ∨ p.1.2 = q.1.2 ∧ q.2 < p.2))%Z
  end.
Proof.
  destruct p as [[p1 p2] p3], q as [[q1 q2] q3]. unfold lex_compare. simpl.
  destruct (Z.compare_spec p1 q1); [|lia..].
  destruct (Z.compare_spec p2 q2); [|lia..].
  destruct (Z.compare_spec p3 q3); [congruence|lia..].
Qed.

Lemma float_ge_not_nan a b :
  float_ge a b = true → is_nan a = false ∧ is_nan b = false.
Proof. unfold float_ge, SFleb. by destruct a as [| | |[]], b as [| | |[]]. Qed.

Lemma float_lt_not_nan a b :
  float_lt a b = true → is_nan a = false ∧ is_nan b = false.
Proof. unfold float_lt, SFltb. by destruct a as [| | |[]], b as [| | |[]]. Qed.

(** On numbers, [a >= b] is the negation of [a < b]. *)
Lemma float_ge_lt a b :
  is_nan a = false → is_nan b = false → float_ge a b = negb (float_lt a b).
Proof.
  intros Ha Hb. unfold float_ge, float_lt, SFleb, SFltb.
  rewrite !SFcompare_rank by done.
  pose proof (lex_compare_spec (rank a) (rank b)) as H1.
  pose proof (lex_compare_spec (rank b) (rank a)) as H2.
  destruct (lex_compare (rank a) (rank b)), (lex_compare (rank b) (rank a));
    try done; try (rewrite H1 in H2; lia); try (rewrite H2 in H1; lia); lia.
Qed.

Lemma float_lt_asym a b : float_lt a b = true → float_lt b a = false.
Proof.
  intros H. destruct (float_lt_not_nan _ _ H) as [Ha Hb]. revert H.
  unfold float_lt, SFltb. rewrite !SFcompare_rank by done.
  pose proof (lex_compare_spec (rank a) (rank b)) as H1.
  pose proof (lex_compare_spec (rank b) (rank a)) as H2.
  destruct (lex_compare (rank a) (rank b)), (lex_compare (rank b) (rank a));
    try done; lia.
Qed.

(** [c >= b] and [b >= a] give [c >= a]. *)
Lemma float_ge_trans a b c :
  float_ge c b = true → float_ge b a = true → float_ge c a = true.
Proof.
  intros H1 H2.
  destruct (float_ge_not_nan _ _ H1) as [Hc Hb].
  destruct (float_ge_not_nan _ _ H2) as [_ Ha].
  revert H1 H2. unfold float_ge, SFleb. rewrite !SFcompare_rank by done.
  pose proof (lex_compare_spec (rank b) (rank c)) as Hbc.
  pose proof (lex_compare_spec (rank a) (rank b)) as Hab.
  pose proof (lex_compare_spec (rank a) (rank c)) as Hac.
  destruct (lex_compare (rank b) (rank c)), (lex_compare (rank a) (rank b)),
    (lex_compare (rank a) (rank c)); try done; intros _ _; subst;
    try (rewrite ?Hbc, ?Hab in *); lia.
Qed.

(** Every number is at least [-inf]. *)
Lemma float_ge_neg_inf a : is_nan a = false → float_ge a neg_inf = true.
Proof. by destruct a as [| [] | |[]]. Qed.

(** [==] on floats implies [>=] and excludes [<]. *)
Lemma float_eq_ge a b :
  SFeqb a b = true → float_ge a b = true ∧ float_lt a b = false.
Proof.
  unfold SFeqb, float_ge, float_lt, SFleb, SFltb. intros H.
  assert (is_nan a = false ∧ is_nan b = false) as [Ha Hb]
    by (by destruct a as [| | |[]], b as [| | |[]]).
  revert H. rewrite !SFcompare_rank by done.
  pose proof (lex_compare_spec (rank a) (rank b)) as H1.
  pose proof (lex_compare_spec (rank b) (rank a)) as H2.
  destruct (lex_compare (rank a) (rank b)), (lex_compare (rank b) (rank a));
    try done; try (rewrite H1 in H2; lia).
Qed.

(** *** Rendering *)

Lemma uint_str_digits d : forallb Char.isdigit (uint_str d) = true.
Proof. induction d; simpl; by rewrite ?IHd. Qed.

Lemma fixed_digits_length p k : length (fixed_digits p k) = p.
Proof.
  revert k. induction p as [|p IH]; intros k; simpl; [done|].
  rewrite length_app, IH. simpl. lia.
Qed.

Lemma fixed_digits_digits p k : forallb Char.isdigit (fixed_digits p k) = true.
Proof.
  revert k. induction p as [|p IH]; intros k; simpl; [done|].
  rewrite forallb_app, IH. simpl. rewrite andb_true_r.
  unfold Char.isdigit, Char.between, Char.ZERO.
  pose proof (N.mod_upper_bound k 10 ltac:(done)) as H. revert H.
  generalize (k mod 10). intros r Hr.
  apply andb_true_iff. split; apply N.leb_le; lia.
Qed.

Lemma after_point_app a b :
  forallb (λ c, negb (c =? Char.DOT)) a = true →
  after_point (a ++ Char.DOT :: b) = Some b.
Proof.
  induction a as [|c a IH]; simpl; [done|].
  destruct (c =? Char.DOT); simpl; [done|]. apply IH.
Qed.

Lemma digits_no_point a :
  forallb Char.isdigit a = true → forallb (λ c, negb (c =? Char.DOT)) a = true.
Proof.
  induction a as [|c a IH]; simpl; [done|].
  intros [Hc Ha]%andb_true_iff. rewrite IH by done. rewrite andb_true_r.
  unfold Char.isdigit, Char.between in Hc. apply andb_true_iff in Hc as [H1 H2].
  apply N.leb_le in H1. apply negb_true_iff, N.eqb_neq. unfold Char.DOT. lia.
Qed.

Lemma fixed_point_decimals p k s :
  p ≠ O → has_decimals p (sign_str s ++ fixed_point p k) = true.
Proof.
  intros Hp. unfold has_decimals, fixed_point.
  destruct p as [|p]; [done|].
  rewrite app_assoc, after_point_app.
  - rewrite fixed_digits_length, fixed_digits_digits. by rewrite Nat.eqb_refl.
  - rewrite forallb_app. apply andb_true_iff. split.
    + by destruct s.
    + apply digits_no_point, uint_str_digits.
Qed.

(** A finite float is rendered with exactly [p] digits after the point. *)
Lemma format_f_decimals p x :
  p ≠ O → is_finite x = true → has_decimals p (format_f p x) = true.
Proof.
  intros Hp Hx. destruct x; try done; simpl; by apply fixed_point_decimals.
Qed.

(** Infinities and NaN have no decimal point. *)
Lemma format_f_not_finite p x :
  is_finite x = false → has_decimals p (format_f p x) = false.
Proof. by destruct x as [|[]| |]. Qed.

(** [round_half_even n d] is within one half of [n / d], and even at a tie. *)
Lemma round_half_even_nearest n d :
  d ≠ 0 →
  let k := round_half_even n d in
  2 * k * d ≤ 2 * n + d ∧ 2 * n ≤ 2 * k * d + d ∧
  (2 * n = 2 * k * d + d ∨ 2 * n + d = 2 * k * d → N.even k = true).
Proof.
  intros Hd. unfold round_half_even. cbv zeta.
  pose proof (N.div_mod n d Hd) as E.
  pose proof (N.mod_upper_bound n d Hd) as Hr.
  set (q := n / d) in *. set (r := n mod d) in *.
  destruct (N.compare_spec (2 * r) d) as [H|H|H].
  - destruct (N.even q) eqn:Hq.
    + split; [nia|]. split; [nia|]. done.
    + split; [nia|]. split; [nia|]. intros _.
      rewrite N.add_1_r, N.even_succ, <- N.negb_even, Hq. done.
  - split; [nia|]. split; [nia|]. intros [?|?]; nia.
  - split; [nia|]. split; [nia|]. intros [?|?]; nia.
Qed.

(** *** Reading the numbers back *)

Lemma digits_value_snoc (s : str) (c : N) :
  digits_value (s ++ [c]) = 10 * digits_value s + (c - Char.ZERO).
Proof. unfold digits_value. by rewrite fold_left_app. Qed.

Lemma digits_value_uint_acc (d d' : Decimal.uint) :
  fold_left (λ acc c, 10 * acc + (c - Char.ZERO)) (uint_str d)
            (DecimalPos.Unsigned.of_lu d')
  = DecimalPos.Unsigned.of_lu (Decimal.revapp d d').
Proof.
  revert d'. induction d; intros d'; [done|..];
    cbn [uint_str fold_left Decimal.revapp]; rewrite <- IHd; f_equal;
    cbn [DecimalPos.Unsigned.of_lu]; unfold Char.ZERO; lia.
Qed.

(** The decimal digits of a number denote the number. *)
Lemma digits_value_str_of_N (n : N) : digits_value (str_of_N n) = n.
Proof.
  unfold digits_value, str_of_N.
  etransitivity; [exact (digits_value_uint_acc (N.to_uint n) Decimal.Nil)|].
  change (Decimal.revapp (N.to_uint n) Decimal.Nil) with (Decimal.rev (N.to_uint n)).
  rewrite <- DecimalPos.Unsigned.of_uint_alt.
  apply DecimalN.Unsigned.of_to.
Qed.

Lemma digits_value_fixed_digits (p : nat) (k : N) :
  digits_value (fixed_digits p k) = k mod 10 ^ N.of_nat p.
Proof.
  revert k. induction p as [|p IH]; intros k.
  - simpl. by rewrite N.mod_1_r.
  - cbn [fixed_digits]. rewrite digits_value_snoc, IH.
    rewrite Nat2N.inj_succ, N.pow_succ_r'.
    rewrite N.Div0.mod_mul_r. unfold Char.ZERO.
    generalize (k mod 10) ((k / 10) mod 10 ^ N.of_nat p). intros a b. lia.
Qed.

Lemma fixed_point_value (p : nat) (K : N) :
  digits_value (str_of_N (K / 10 ^ N.of_nat p)) * 10 ^ N.of_nat p
  + digits_value (fixed_digits p (K mod 10 ^ N.of_nat p)) = K.
Proof.
  rewrite digits_value_str_of_N, digits_value_fixed_digits.
  rewrite N.Div0.mod_mod.
  rewrite (N.div_mod K (10 ^ N.of_nat p)) at 3 by (by apply N.pow_nonzero).
  lia.
Qed.

(** [scale10] is the magnitude times [10^p], rounded to the nearest
    integer. *)
Lemma scale10_nearest (p : nat) (s : bool) (m : positive) (e : Z) :
  let K := scale10 p m e in
  let n := (magnitude (S754_finite s m e)).1 in
  let d := (magnitude (S754_finite s m e)).2 in
  2 * K * d ≤ 2 * n * 10 ^ N.of_nat p + d ∧
  2 * n * 10 ^ N.of_nat p ≤ 2 * K * d + d.
Proof.
  destruct e as [|k|k]; cbn [scale10 magnitude fst snd]; cbv zeta.
  - lia.
  - lia.
  - assert (2 ^ N.pos k ≠ 0) as Hd by (by apply N.pow_nonzero).
    destruct (round_half_even_nearest (N.pos m * 10 ^ N.of_nat p) _ Hd)
      as (H1 & H2 & _).
    lia.
Qed.

(** What [format_f] writes for a finite float, read back: the sign, an
    integer part, a point and [p] digits that denote the multiple of
    [10^-p] nearest to the magnitude. *)
Lemma format_f_digits (p : nat) (x : float) :
  is_finite x = true → p ≠ O →
  ∃ ip fp : str,
    format_f p x = sign_str (sign_bit x) ++ ip ++ Char.DOT :: fp ∧
    forallb Char.isdigit ip = true ∧
    forallb Char.isdigit fp = true ∧
    length fp = p ∧
    2 * (digits_value ip * 10 ^ N.of_nat p + digits_value fp) * (magnitude x).2
      ≤ 2 * (magnitude x).1 * 10 ^ N.of_nat p + (magnitude x).2 ∧
    2 * (magnitude x).1 * 10 ^ N.of_nat p
      ≤ 2 * (digits_value ip * 10 ^ N.of_nat p + digits_value fp) * (magnitude x).2
        + (magnitude x).2.
Proof.
  intros Hx Hp.
  assert (∃ K, format_f p x = sign_str (sign_bit x) ++ fixed_point p K ∧
               2 * K * (magnitude x).2
                 ≤ 2 * (magnitude x).1 * 10 ^ N.of_nat p + (magnitude x).2 ∧
               2 * (magnitude x).1 * 10 ^ N.of_nat p
                 ≤ 2 * K * (magnitude x).2 + (magnitude x).2) as (K & E & HK).
  { destruct x as [s| | |s m e]; try done.
    - exists 0. split; [done|]. simpl. lia.
    - exists (scale10 p m e). split; [done|]. apply (scale10_nearest p s m e). }
  exists (str_of_N (K / 10 ^ N.of_nat p)),
         (fixed_digits p (K mod 10 ^ N.of_nat p)).
  rewrite fixed_point_value. split.
  { rewrite E. unfold fixed_point. by destruct p. }
  split; [apply uint_str_digits|]. split; [apply fixed_digits_digits|].
  split; [apply fixed_digits_length|done].
Qed.

(** ** Running the script *)

Lemma bind_ok {A B} (c : M A) (f : A → M B) σ a σ' :
  c σ = (Ok a, σ') → (c ≫= f) σ = f a σ'.
Proof. unfold mbind, M_bind. by intros ->. Qed.

Lemma bind_raise {A B} (c : M A) (f : A → M B) σ e σ' :
  c σ = (Raise e, σ') → (c ≫= f) σ = (Raise e, σ').
Proof. unfold mbind, M_bind. by intros ->. Qed.

Lemma world_eta σ : World (files σ) (log σ) = σ.
Proof. by destruct σ. Qed.

Section ScriptFacts.
Variable upper lower : str → str.
Variable zipf_frequency : str → str → float.

Lemma load_words_run path σ text :
  files σ !! path = Some text →
  load_words upper path σ = (Ok (load_text upper text), σ).
Proof.
  intros H. unfold load_words.
  erewrite bind_ok; [done|]. unfold read_text. by rewrite H.
Qed.

Lemma load_words_missing path σ :
  files σ !! path = None →
  load_words upper path σ = (Raise (FileNotFoundError path), σ).
Proof.
  intros H. unfold load_words.
  erewrite bind_raise; [done|]. unfold read_text. by rewrite H.
Qed.

Lemma score_loop_run words acc σ :
  score_loop lower zipf_frequency words acc σ =
    (Ok (acc ++ scored_set lower zipf_frequency words),
     World (files σ) (log σ ++ oracle_events lower words)).
Proof.
  revert acc σ. induction words as [|w words IH]; intros acc σ; simpl.
  - rewrite !app_nil_r. by rewrite world_eta.
  - erewrite bind_ok; [|done]. rewrite IH. simpl.
    by rewrite <- !app_assoc.
Qed.

Lemma score_words_run words σ :
  score_words lower zipf_frequency words σ =
    (Ok (scored_set lower zipf_frequency words),
     World (files σ) (log σ ++ oracle_events lower words)).
Proof. apply score_loop_run. Qed.

Lemma write_rows_run fh (rows : list (list str)) σ cur :
  files σ !! fh = Some cur →
  for_each (csv_writerow fh) rows σ =
    (Ok tt,
     World (<[fh := cur ++ concat (Csv.render_row <$> rows)]> (files σ))
           (log σ ++ ((λ row, EvWriteRow fh (Csv.render_row row)) <$> rows))).
Proof.
  revert σ cur. induction rows as [|row rows IH]; intros σ cur H; simpl.
  - rewrite !app_nil_r. rewrite insert_id by done. by rewrite world_eta.
  - erewrite bind_ok; [|done]. simpl.
    erewrite IH; [|simpl; apply lookup_insert_eq]. simpl.
    rewrite H. simpl. rewrite insert_insert_eq. by rewrite <- !app_assoc.
Qed.

Lemma for_each_fmap {A B} (g : A → B) (body : B → M unit) (l : list A) :
  for_each (λ x, body (g x)) l = for_each body (g <$> l).
Proof. induction l as [|x l IH]; simpl; [done|]. by rewrite IH. Qed.

Lemma export_rejects_run path rejects σ :
  export_rejects path rejects σ =
    (Ok tt,
     World (<[path := reject_text rejects]> (files σ))
           (log σ ++ reject_events path rejects)).
Proof.
  unfold export_rejects. erewrite bind_ok; [|done].
  erewrite bind_ok; [|done].
  rewrite (for_each_fmap (λ item, [word item; format_f 3 (freq item)])
                         (csv_writerow path)).
  erewrite write_rows_run; [|simpl; apply lookup_insert_eq].
  simpl. rewrite lookup_insert_eq. simpl. rewrite !insert_insert_eq.
  unfold reject_text, reject_events, reject_rows. simpl.
  by rewrite <- !app_assoc.
Qed.

(** A run whose source file is missing stops at once. *)
Lemma main_missing args σ :
  files σ !! Args.source args = None →
  main upper lower zipf_frequency args σ =
    (Raise (SystemExit (py "Source file not found: " ++ Args.source args)), σ).
Proof.
  intros H. unfold main.
  erewrite bind_ok; [|reflexivity]. rewrite H.
  rewrite bool_decide_eq_false_2 by (by intros [? ?]). done.
Qed.

(** A run whose source file exists goes through, and this is the world
    it leaves. *)
Lemma main_run args σ text :
  files σ !! Args.source args = Some text →
  let scored := scored_set lower zipf_frequency (load_text upper text) in
  let dropped := below (Args.threshold args) scored in
  let out := or_path (Args.output args) (Args.source args) in
  let kept_text :=
    join [Char.LF] (sorted str_lt (word <$> at_least (Args.threshold args) scored))
      ++ [Char.LF] in
  let allowed_text :=
    join [Char.LF]
      (sorted str_lt
         (word <$> at_least (default neg_inf (Args.guesses_threshold args)) scored))
      ++ [Char.LF] in
  let written :=
    <[Args.guesses_output args := allowed_text]> (<[out := kept_text]> (files σ)) in
  let report := sorted_by float_lt freq dropped in
  main upper lower zipf_frequency args σ =
    (Ok tt,
     World
       (if list_truthy dropped
        then <[Args.rejects args := reject_text report]> written
        else written)
       (log σ ++ oracle_events lower (load_text upper text) ++
        [EvWriteText out kept_text;
         EvWriteText (Args.guesses_output args) allowed_text] ++
        (if list_truthy dropped
         then reject_events (Args.rejects args) report else []) ++
        summary_events args scored)).
Proof.
  intros H. cbv zeta. unfold main.
  erewrite bind_ok; [|reflexivity]. rewrite H.
  rewrite bool_decide_eq_true_2 by done. cbn [negb].
  erewrite bind_ok; [|by apply load_words_run].
  erewrite bind_ok; [|by apply score_words_run].
  set (scored := scored_set lower zipf_frequency (load_text upper text)).
  cbv zeta. erewrite bind_ok; [|reflexivity].
  unfold path_truthy at 1. cbv iota.
  erewrite bind_ok; [|reflexivity].
  replace (match Args.guesses_threshold args with Some g => g | None => neg_inf end)
    with (default neg_inf (Args.guesses_threshold args))
    by (by destruct (Args.guesses_threshold args)).
  destruct (list_truthy (below (Args.threshold args) scored)) eqn:Hd.
  - erewrite bind_ok; [|apply export_rejects_run].
    unfold summary_events, print, emit, mbind, M_bind; simpl.
    by rewrite <- !app_assoc.
  - erewrite bind_ok; [|reflexivity].
    unfold summary_events, print, emit, mbind, M_bind; simpl.
    by rewrite <- !app_assoc.
Qed.
End ScriptFacts.

Lemma events_since_app σ σ' evs :
  log σ' = log σ ++ evs → events_since σ σ' = evs.
Proof. unfold events_since. intros ->. by rewrite drop_app_length. Qed.

Section RunFacts.
Variable upper lower : str → str.
Variable zipf_frequency : str → str → float.
Variables (args : Args.t) (σ : world) (text : str).
Hypothesis source_found : files σ !! Args.source args = Some text.

Let scored := scored_set lower zipf_frequency (load_text upper text).
Let σ' := (main upper lower zipf_frequency args σ).2.

Lemma main_events :
  events_since σ σ' =
    oracle_events lower (load_text upper text) ++
    [EvWriteText (or_path (Args.output args) (Args.source args))
       (join [Char.LF]
          (sorted str_lt (word <$> at_least (Args.threshold args) scored))
        ++ [Char.LF]);
     EvWriteText (Args.guesses_output args)
       (join [Char.LF]
          (sorted str_lt
             (word <$> at_least (default neg_inf (Args.guesses_threshold args))
                         scored))
        ++ [Char.LF])] ++
    (if list_truthy (below (Args.threshold args) scored)
     then reject_events (Args.rejects args)
            (sorted_by float_lt freq (below (Args.threshold args) scored))
     else []) ++
    summary_events args scored.
Proof.
  unfold σ'. rewrite (main_run upper lower zipf_frequency _ _ _ source_found).
  cbv zeta. by apply events_since_app.
Qed.

Lemma main_returns : (main upper lower zipf_frequency args σ).1 = Ok tt.
Proof. by rewrite (main_run upper lower zipf_frequency _ _ _ source_found). Qed.

Lemma main_writes_answers :
  EvWriteText (or_path (Args.output args) (Args.source args))
    (join [Char.LF]
       (sorted str_lt (word <$> at_least (Args.threshold args) scored))
     ++ [Char.LF]) ∈ events_since σ σ'.
Proof. rewrite main_events. apply elem_of_app. right. apply list_elem_of_here. Qed.

Lemma main_writes_allowed :
  EvWriteText (Args.guesses_output args)
    (join [Char.LF]
       (sorted str_lt
          (word <$> at_least (default neg_inf (Args.guesses_threshold args))
                      scored))
     ++ [Char.LF]) ∈ events_since σ σ'.
Proof.
  rewrite main_events. apply elem_of_app. right.
  apply list_elem_of_further, list_elem_of_here.
Qed.

(** The files after the run: the two word lists, then the report. *)
Lemma main_files :
  files σ' =
    let written :=
      <[Args.guesses_output args :=
          join [Char.LF]
            (sorted str_lt
               (word <$> at_least (default neg_inf (Args.guesses_threshold args))
                           scored))
          ++ [Char.LF]]>
        (<[or_path (Args.output args) (Args.source args) :=
             join [Char.LF]
               (sorted str_lt (word <$> at_least (Args.threshold args) scored))
             ++ [Char.LF]]> (files σ)) in
    if list_truthy (below (Args.threshold args) scored)
    then <[Args.rejects args :=
             reject_text (sorted_by float_lt freq
                            (below (Args.threshold args) scored))]> written
    else written.
Proof.
  unfold σ'. by rewrite (main_run upper lower zipf_frequency _ _ _ source_found).
Qed.
End RunFacts.

(** * The claims *)

(** ** Loader *)

(** C5. For every content of the source file the Loader returns, without
    touching the world, the lines of the content ([str.splitlines]) that are
    not made of whitespace only, each trimmed and then upper-cased, in the
    order of the file and as often as they occur. The lines hold the
    characters of the content other than line boundaries, in order, and no
    line holds a line boundary. Trimming [l] removes a run of whitespace from
    each end of [l], and what is left neither starts nor ends with
    whitespace. *)
Theorem load_words_spec (upper : str → str) (path : Path) (σ : world) (text : str) :
  files σ !! path = Some text →
  load_words upper path σ =
    (Ok ((λ l, upper (strip l)) <$>
           List.filter (λ l, negb (forallb Char.isspace l)) (splitlines text)),
     σ) ∧
  concat (splitlines text) = List.filter (λ c, negb (Char.islinebreak c)) text ∧
  Forall (λ l, existsb Char.islinebreak l = false) (splitlines text) ∧
  ∀ l : str,
    (∃ pre post, l = pre ++ strip l ++ post ∧
       forallb Char.isspace pre = true ∧ forallb Char.isspace post = true) ∧
    (∀ c, head (strip l) = Some c → Char.isspace c = false) ∧
    (∀ c, last (strip l) = Some c → Char.isspace c = false).
Proof.
  intros H. split; [|split; [apply splitlines_chars|split; [apply splitlines_no_break|]]].
  - rewrite (load_words_run _ _ _ _ H). unfold load_text.
    do 3 f_equal. apply List.filter_ext. intros l. apply str_truthy_strip.
  - intros l. split; [apply strip_split|]. split; intros c Hc.
    + destruct (strip l) as [|d s'] eqn:E; [done|].
      injection Hc as ->. by apply strip_head in E.
    + apply last_Some in Hc as [s' E]. by apply strip_last in E.
Qed.

(** ** Scorer *)

(** C6. For every sequence of words the Scorer returns a Scored Set of the
    same length whose i-th entry pairs the i-th word with the oracle's score
    of it; it calls the oracle once for each occurrence, in order, and does
    nothing else. *)
Theorem score_words_spec (lower : str → str) (zipf_frequency : str → str → float)
    (words : list str) (σ : world) :
  ∃ scored σ',
    score_words lower zipf_frequency words σ = (Ok scored, σ') ∧
    length scored = length words ∧
    word <$> scored = words ∧
    (∀ i w, words !! i = Some w →
       scored !! i = Some (mkWordScore w (zipf_frequency (lower w) (py "en")))) ∧
    events_since σ σ' = (λ w, EvOracle (lower w) (py "en")) <$> words ∧
    files σ' = files σ.
Proof.
  eexists _, _. split; [apply score_words_run|].
  unfold scored_set. repeat split.
  - by rewrite length_fmap.
  - rewrite <- list_fmap_compose. apply list_fmap_id.
  - intros i w Hi. rewrite list_lookup_fmap, Hi. done.
  - by apply events_since_app.
Qed.

(** ** Missing source file *)

(** C7. When the source path does not exist the run raises [SystemExit]
    with a message, so the exit status is not zero, and it leaves the world as
    it found it: the oracle is not called and no file is written or changed. *)
Theorem main_missing_source (upper lower : str → str)
    (zipf_frequency : str → str → float) (args : Args.t) (σ : world) :
  files σ !! Args.source args = None →
  let run := main upper lower zipf_frequency args σ in
  run.1 = Raise (SystemExit (py "Source file not found: " ++ Args.source args)) ∧
  exit_status run.1 ≠ 0%Z ∧
  run.2 = σ ∧
  events_since σ run.2 = [] ∧
  files run.2 = files σ.
Proof.
  intros H run. unfold run. rewrite main_missing by done. simpl.
  repeat split; [done|]. apply events_since_app. by rewrite app_nil_r.
Qed.

(** ** Partitioner *)

Lemma elem_of_at_least t scored it :
  it ∈ at_least t scored ↔ it ∈ scored ∧ float_ge (freq it) t = true.
Proof. unfold at_least. by rewrite !list_elem_of_In, filter_In. Qed.

Lemma elem_of_below t scored it :
  it ∈ below t scored ↔ it ∈ scored ∧ float_lt (freq it) t = true.
Proof. unfold below. by rewrite !list_elem_of_In, filter_In. Qed.

Lemma filter_sublist {A} (f : A → bool) l : sublist (List.filter f l) l.
Proof.
  induction l as [|x l IH]; simpl; [done|].
  destruct (f x); by constructor.
Qed.

(** A list is a permutation of the elements that pass a test followed by
    those that fail it. *)
Lemma filter_split_perm {A} (f : A → bool) l :
  l ≡ₚ List.filter f l ++ List.filter (λ x, negb (f x)) l.
Proof.
  induction l as [|x l IH]; simpl; [done|].
  destruct (f x); simpl.
  - by rewrite <- IH.
  - by rewrite <- Permutation_middle, <- IH.
Qed.

Lemma below_complement t scored :
  is_nan t = false → Forall (λ it, is_nan (freq it) = false) scored →
  below t scored = List.filter (λ it, negb (float_ge (freq it) t)) scored.
Proof.
  intros Ht Hs. unfold below.
  induction Hs as [|it scored Hit Hs IH]; simpl; [done|].
  rewrite IH. rewrite (float_ge_lt _ _ Hit Ht), negb_involutive. done.
Qed.

(** Passing a higher threshold implies passing a lower one. *)
Lemma at_least_antitone t1 t2 scored :
  float_ge t2 t1 = true → at_least t2 scored = at_least t2 (at_least t1 scored).
Proof.
  intros H. unfold at_least.
  induction scored as [|it scored IH]; simpl; [done|].
  destruct (float_ge (freq it) t2) eqn:E2.
  - rewrite (float_ge_trans _ _ _ E2 H). simpl. rewrite E2. by f_equal.
  - destruct (float_ge (freq it) t1); simpl; rewrite ?E2; done.
Qed.

(** C1. For every threshold that is a number and every Scored Set whose
    scores are numbers: kept holds exactly the entries with
    [freq >= threshold] and dropped exactly those with [freq < threshold],
    both in the order of the Scored Set; an entry whose score equals the
    threshold is kept and not dropped; the sizes add up to the size of the
    Scored Set, which is a permutation of kept followed by dropped; no entry
    is in both; and when the Scored Set comes from the oracle, no word is
    both among the kept and among the dropped words. *)
Theorem partition_exact (lower : str → str) (zipf_frequency : str → str → float)
    (t : float) (scored : list WordScore) :
  is_nan t = false →
  Forall (λ it, is_nan (freq it) = false) scored →
  let kept := at_least t scored in
  let dropped := below t scored in
  (∀ it, it ∈ kept ↔ it ∈ scored ∧ float_ge (freq it) t = true) ∧
  (∀ it, it ∈ dropped ↔ it ∈ scored ∧ float_lt (freq it) t = true) ∧
  sublist kept scored ∧ sublist dropped scored ∧
  (∀ it, it ∈ scored → SFeqb (freq it) t = true → it ∈ kept ∧ it ∉ dropped) ∧
  (length kept + length dropped = length scored)%nat ∧
  scored ≡ₚ kept ++ dropped ∧
  (∀ it, it ∈ kept → it ∉ dropped) ∧
  (∀ words, scored = scored_set lower zipf_frequency words →
     ∀ w, w ∈ word <$> kept → w ∉ word <$> dropped).
Proof.
  intros Ht Hs kept dropped. unfold kept, dropped.
  split; [apply elem_of_at_least|]. split; [apply elem_of_below|].
  split; [apply filter_sublist|]. split; [apply filter_sublist|].
  assert (∀ it, float_ge (freq it) t = true → float_lt (freq it) t = true → False)
    as Hexcl.
  { intros it Hge Hlt. destruct (float_ge_not_nan _ _ Hge) as [Ha Hb].
    rewrite (float_ge_lt _ _ Ha Hb), Hlt in Hge. done. }
  split.
  { intros it Hin [Hge Hlt]%float_eq_ge. split.
    - by apply elem_of_at_least.
    - rewrite elem_of_below. intros [_ Hlt']. congruence. }
  assert (scored ≡ₚ at_least t scored ++ below t scored) as Hperm.
  { rewrite (below_complement _ _ Ht Hs). apply filter_split_perm. }
  split.
  { rewrite <- length_app. by rewrite <- Hperm. }
  split; [done|].
  split.
  { intros it [_ Hge]%elem_of_at_least [_ Hlt]%elem_of_below. eauto. }
  intros words -> w.
  intros (it & -> & [Hit Hge]%elem_of_at_least)%list_elem_of_fmap.
  intros (it' & Ew & [Hit' Hlt]%elem_of_below)%list_elem_of_fmap.
  unfold scored_set in Hit, Hit'.
  apply list_elem_of_fmap in Hit as (w1 & -> & _).
  apply list_elem_of_fmap in Hit' as (w2 & -> & _).
  simpl in Ew. subst w2. eauto.
Qed.

(** C10. Threshold filtering is antitone. For thresholds [t1 <= t2], an
    entry that passes the filter at [t2] passes it at [t1]. In particular,
    in a run whose guesses threshold (minus infinity when unset) is at most
    the answer threshold, the answer list and the allowed-guesses list are
    written, and every word of the first is a word of the second. *)
Theorem threshold_antitone (upper lower : str → str)
    (zipf_frequency : str → str → float) (t1 t2 : float) :
  float_ge t2 t1 = true →
  (∀ scored it, it ∈ at_least t2 scored → it ∈ at_least t1 scored) ∧
  (∀ scored, sublist (at_least t2 scored) (at_least t1 scored)) ∧
  (∀ args σ text,
     files σ !! Args.source args = Some text →
     Args.threshold args = t2 →
     default neg_inf (Args.guesses_threshold args) = t1 →
     ∃ answers allowed,
       let evs := events_since σ (main upper lower zipf_frequency args σ).2 in
       EvWriteText (or_path (Args.output args) (Args.source args))
         (join [Char.LF] answers ++ [Char.LF]) ∈ evs ∧
       EvWriteText (Args.guesses_output args)
         (join [Char.LF] allowed ++ [Char.LF]) ∈ evs ∧
       ∀ w, w ∈ answers → w ∈ allowed).
Proof.
  intros H.
  assert (∀ scored it, it ∈ at_least t2 scored → it ∈ at_least t1 scored) as Hin.
  { intros scored it. rewrite !elem_of_at_least. intros [Hit Hge].
    eauto using float_ge_trans. }
  split; [done|]. split.
  { intros scored. rewrite (at_least_antitone _ _ _ H). apply filter_sublist. }
  intros args σ text Hsrc Ht2 Ht1.
  eexists _, _. cbv zeta.
  split; [by apply main_writes_answers|]. split; [by apply main_writes_allowed|].
  intros w. unfold sorted. rewrite !sorted_by_perm. rewrite Ht1, Ht2.
  rewrite !list_elem_of_fmap. intros (it & -> & Hit). eauto.
Qed.

Lemma at_least_all t scored :
  Forall (λ it, float_ge (freq it) t = true) scored → at_least t scored = scored.
Proof.
  unfold at_least. induction 1 as [|it scored Hit Hs IH]; simpl; [done|].
  by rewrite Hit, IH.
Qed.

(** C2. In a run, the allowed-guesses file is written with the sorted words
    of the allowed list, which is the filter [freq >= guesses_threshold] of
    the whole Scored Set, not of kept, with minus infinity for an unset
    threshold. When the threshold is unset and the scores are numbers, the
    allowed list is the whole Scored Set, whatever the scores. When it is
    set, the allowed list holds exactly the entries of the Scored Set with
    [freq >= guesses_threshold], in the order of the Scored Set. The allowed
    list may hold a word that kept does not. *)
Theorem allowed_is_independent_filter (upper lower : str → str)
    (zipf_frequency : str → str → float) (args : Args.t) (σ : world) (text : str) :
  files σ !! Args.source args = Some text →
  let scored := scored_set lower zipf_frequency (load_text upper text) in
  let allowed := at_least (default neg_inf (Args.guesses_threshold args)) scored in
  EvWriteText (Args.guesses_output args)
    (join [Char.LF] (sorted str_lt (word <$> allowed)) ++ [Char.LF])
    ∈ events_since σ (main upper lower zipf_frequency args σ).2 ∧
  sublist allowed scored ∧
  (Args.guesses_threshold args = None →
   Forall (λ it, is_nan (freq it) = false) scored →
   allowed = scored) ∧
  (∀ g, Args.guesses_threshold args = Some g →
     ∀ it, it ∈ allowed ↔ it ∈ scored ∧ float_ge (freq it) g = true) ∧
  (∃ (scored0 : list WordScore) (t g : float) (it : WordScore),
     it ∈ at_least g scored0 ∧ it ∉ at_least t scored0).
Proof.
  intros Hsrc scored allowed.
  split; [by apply main_writes_allowed|].
  split; [apply filter_sublist|]. split.
  { intros Hg Hnum. unfold allowed. rewrite Hg. simpl.
    apply at_least_all. eapply Forall_impl; [exact Hnum|].
    intros it. apply float_ge_neg_inf. }
  split.
  { intros g Hg it. unfold allowed. rewrite Hg. apply elem_of_at_least. }
  exists [mkWordScore (py "ZYZZX") (S754_zero false)],
    (float_of_decimal 34 1), neg_inf, (mkWordScore (py "ZYZZX") (S754_zero false)).
  split.
  - apply list_elem_of_here.
  - vm_compute. apply not_elem_of_nil.
Qed.

(** ** Writer: the word lists *)

Lemma snoc_not_nil {A} (l : list A) x : l ++ [x] ≠ [].
Proof. by destruct l. Qed.

Lemma join_lines (sep : str) (l : list str) :
  l ≠ [] → join sep l ++ sep = concat ((λ w, w ++ sep) <$> l).
Proof.
  induction l as [|w l IH]; [done|]. intros _.
  destruct l as [|w' l].
  - simpl. by rewrite app_nil_r.
  - change (join sep (w :: w' :: l)) with (w ++ sep ++ join sep (w' :: l)).
    rewrite <- !app_assoc, IH by done. simpl. by rewrite <- !app_assoc.
Qed.

Lemma Sorted_le_lt_or_eq (l : list str) :
  Sorted (λ a b, str_le a b = true) l →
  Sorted (λ a b, str_lt a b = true ∨ a = b) l.
Proof.
  apply Sorted_mono. intros a b _ _. by rewrite str_le_spec.
Qed.

(** Ascending words that are pairwise distinct are strictly ascending. *)
Lemma Sorted_le_NoDup_lt (l : list str) :
  Sorted (λ a b, str_le a b = true) l → NoDup l →
  Sorted (λ a b, str_lt a b = true) l.
Proof.
  induction 1 as [|a l Hl IH Ha]; intros Hnd; constructor.
  - apply IH. by apply NoDup_cons_1_2 in Hnd.
  - destruct Ha as [|b l Hab]; constructor.
    apply str_le_spec in Hab as [Hlt| ->]; [done|].
    apply NoDup_cons_1_1 in Hnd. exfalso. apply Hnd. apply list_elem_of_here.
Qed.

(** C4. In a run, the answer-list file is written with the sorted words of
    kept and the allowed-guesses file with the sorted words of allowed, and
    each file keeps that text unless a later write of the run goes to the
    same path. For either list the sorted words are a rearrangement of the
    words of the list, every copy of a duplicate included; they ascend in the
    code-point lexicographic order, strictly from a word to the next
    different one, and strictly throughout when no word occurs twice; they
    are the only ascending rearrangement. For a non-empty list the text is
    the sorted words, each followed by a newline. *)
Theorem word_lists_sorted (upper lower : str → str)
    (zipf_frequency : str → str → float) (args : Args.t) (σ : world) (text : str) :
  files σ !! Args.source args = Some text →
  let scored := scored_set lower zipf_frequency (load_text upper text) in
  let σ' := (main upper lower zipf_frequency args σ).2 in
  let kept := at_least (Args.threshold args) scored in
  let allowed := at_least (default neg_inf (Args.guesses_threshold args)) scored in
  let dropped := below (Args.threshold args) scored in
  let out := or_path (Args.output args) (Args.source args) in
  let render (entries : list WordScore) : str :=
    join [Char.LF] (sorted str_lt (word <$> entries)) ++ [Char.LF] in
  EvWriteText out (render kept) ∈ events_since σ σ' ∧
  EvWriteText (Args.guesses_output args) (render allowed) ∈ events_since σ σ' ∧
  (out ≠ Args.guesses_output args → (dropped ≠ [] → out ≠ Args.rejects args) →
   files σ' !! out = Some (render kept)) ∧
  ((dropped ≠ [] → Args.guesses_output args ≠ Args.rejects args) →
   files σ' !! Args.guesses_output args = Some (render allowed)) ∧
  ∀ entries : list WordScore,
    let lines := sorted str_lt (word <$> entries) in
    lines ≡ₚ word <$> entries ∧
    Sorted (λ a b, str_le a b = true) lines ∧
    Sorted (λ a b, str_lt a b = true ∨ a = b) lines ∧
    (NoDup (word <$> entries) → Sorted (λ a b, str_lt a b = true) lines) ∧
    (∀ l', l' ≡ₚ word <$> entries → Sorted (λ a b, str_le a b = true) l' →
           l' = lines) ∧
    (entries ≠ [] → render entries = concat ((λ w, w ++ [Char.LF]) <$> lines)).
Proof.
  intros Hsrc scored σ' kept allowed dropped out render.
  split; [by apply main_writes_answers|].
  split; [by apply main_writes_allowed|].
  pose proof (main_files upper lower zipf_frequency args σ text Hsrc) as Hf.
  cbv zeta in Hf. fold scored σ' dropped kept allowed out in Hf.
  change (join [Char.LF] (sorted str_lt (word <$> kept)) ++ [Char.LF])
    with (render kept) in Hf.
  change (join [Char.LF] (sorted str_lt (word <$> allowed)) ++ [Char.LF])
    with (render allowed) in Hf.
  split; [|split].
  - intros Hog Hor. rewrite Hf. destruct dropped as [|d dropped'] eqn:Ed; simpl.
    + rewrite lookup_insert_ne by done. apply lookup_insert_eq.
    + rewrite lookup_insert_ne by (by intros E; apply Hor).
      rewrite lookup_insert_ne by done. apply lookup_insert_eq.
  - intros Hgr. rewrite Hf. destruct dropped as [|d dropped'] eqn:Ed; simpl.
    + apply lookup_insert_eq.
    + rewrite lookup_insert_ne by (by intros E; apply Hgr).
      apply lookup_insert_eq.
  - intros entries lines.
    assert (Sorted (λ a b, str_le a b = true) lines) as Hs
      by apply sorted_str_Sorted.
    assert (lines ≡ₚ word <$> entries) as Hp by apply sorted_str_perm.
    split; [done|]. split; [done|].
    split; [by apply Sorted_le_lt_or_eq|]. split.
    { intros Hnd. apply Sorted_le_NoDup_lt; [done|]. by rewrite Hp. }
    split; [apply sorted_str_unique|].
    intros Hne. unfold render. apply join_lines.
    fold lines. intros E. rewrite E in Hp.
    symmetry in Hp. apply Permutation_nil_r in Hp.
    by destruct entries.
Qed.

(** C9. A word list is never written as an empty text: [save_words] given no
    word writes a single newline. In a run, when kept is empty the
    answer-list file is written with exactly one newline, and the same holds
    for allowed and the allowed-guesses file; every text the run writes to
    the two paths is non-empty, and after the run both paths hold a
    non-empty file. *)
Theorem empty_list_writes_newline (upper lower : str → str)
    (zipf_frequency : str → str → float) (args : Args.t) (σ : world) (text : str) :
  files σ !! Args.source args = Some text →
  let scored := scored_set lower zipf_frequency (load_text upper text) in
  let σ' := (main upper lower zipf_frequency args σ).2 in
  let out := or_path (Args.output args) (Args.source args) in
  (∀ path σ0,
     save_words path [] σ0 =
       (Ok tt, World (<[path := [Char.LF]]> (files σ0))
                     (log σ0 ++ [EvWriteText path [Char.LF]]))) ∧
  (at_least (Args.threshold args) scored = [] →
   EvWriteText out [Char.LF] ∈ events_since σ σ') ∧
  (at_least (default neg_inf (Args.guesses_threshold args)) scored = [] →
   EvWriteText (Args.guesses_output args) [Char.LF] ∈ events_since σ σ') ∧
  (∀ path data, EvWriteText path data ∈ events_since σ σ' → data ≠ []) ∧
  (∀ path, path = out ∨ path = Args.guesses_output args →
     ∃ data, files σ' !! path = Some data ∧ data ≠ []).
Proof.
  intros Hsrc scored σ' out.
  split; [done|].
  pose proof (main_writes_answers upper lower zipf_frequency args σ text Hsrc) as Ha.
  pose proof (main_writes_allowed upper lower zipf_frequency args σ text Hsrc) as Hg.
  fold scored σ' out in Ha, Hg.
  split; [by intros E; rewrite E in Ha|].
  split; [by intros E; rewrite E in Hg|].
  split.
  - intros path data. unfold σ'.
    rewrite (main_events upper lower zipf_frequency args σ text Hsrc).
    rewrite !elem_of_app. intros [H|[H|[H|H]]].
    + unfold oracle_events in H. by apply list_elem_of_fmap in H as (? & ? & ?).
    + apply elem_of_cons in H as [[= _ ->]|H]; [apply snoc_not_nil|].
      apply elem_of_cons in H as [[= _ ->]|H]; [apply snoc_not_nil|].
      by apply elem_of_nil in H.
    + destruct (list_truthy _); [|by apply elem_of_nil in H].
      unfold reject_events in H. apply elem_of_cons in H as [?|H]; [done|].
      by apply list_elem_of_fmap in H as (? & ? & ?).
    + unfold summary_events in H.
      repeat (apply elem_of_cons in H as [?|H]; [done|]).
      by apply elem_of_nil in H.
  - pose proof (main_files upper lower zipf_frequency args σ text Hsrc) as Hf.
    cbv zeta in Hf. fold scored σ' out in Hf.
    intros path Hpath. rewrite Hf.
    assert (∀ (m : gmap Path str) p d,
      (∃ data, m !! path = Some data ∧ data ≠ []) → d ≠ [] →
      ∃ data, <[p := d]> m !! path = Some data ∧ data ≠ []) as Hkeep.
    { intros m p d Hm Hd. destruct (decide (p = path)) as [->|Hne].
      - exists d. by rewrite lookup_insert_eq.
      - by rewrite lookup_insert_ne. }
    assert (∀ (m : gmap Path str) d, d ≠ [] →
      ∃ data, <[path := d]> m !! path = Some data ∧ data ≠ []) as Hnew.
    { intros m d Hd. exists d. by rewrite lookup_insert_eq. }
    assert (∀ l : str, l ++ [Char.LF] ≠ []) as Hnl
      by (intros l; apply snoc_not_nil).
    assert (∀ rejects, reject_text rejects ≠ []) as Hrt by done.
    destruct (list_truthy _); destruct Hpath as [-> | ->]; auto.
Qed.

(** ** Writer: the reject report *)

Lemma filter_all {A} (f : A → bool) l :
  forallb f l = true → List.filter f l = l.
Proof.
  induction l as [|x l IH]; simpl; [done|].
  intros [-> Hl]%andb_true_iff. by rewrite IH.
Qed.

Lemma filter_none {A} (f : A → bool) l :
  existsb f l = false → List.filter f l = [].
Proof.
  induction l as [|x l IH]; simpl; [done|].
  intros [-> Hl]%orb_false_iff. by apply IH.
Qed.

Lemma existsb_fmap {A B} (f : B → bool) (g : A → B) l :
  existsb f (g <$> l) = existsb (λ x, f (g x)) l.
Proof. induction l as [|x l IH]; csimpl; [done|]. by rewrite IH. Qed.

Lemma existsb_const_false {A} (l : list A) : existsb (λ _, false) l = false.
Proof. by induction l. Qed.

Lemma forallb_const_true {A} (l : list A) : forallb (λ _, true) l = true.
Proof. by induction l. Qed.

Lemma forallb_fmap {A B} (f : B → bool) (g : A → B) l :
  forallb f (g <$> l) = forallb (λ x, f (g x)) l.
Proof. induction l as [|x l IH]; csimpl; [done|]. by rewrite IH. Qed.

(** The rendering of a float needs no quoting in a CSV field. *)
Lemma digits_not_special a :
  forallb Char.isdigit a = true → existsb Csv.special a = false.
Proof.
  induction a as [|c a IH]; simpl; [done|].
  intros [Hc Ha]%andb_true_iff. rewrite IH by done. rewrite orb_false_r.
  unfold Char.isdigit, Char.between in Hc. apply andb_true_iff in Hc as [H1 H2].
  apply N.leb_le in H1. unfold Csv.special.
  rewrite !orb_false_iff, !N.eqb_neq.
  unfold Char.COMMA, Char.QUOTE, Char.CR, Char.LF. lia.
Qed.

Lemma fixed_point_not_special p k s :
  existsb Csv.special (sign_str s ++ fixed_point p k) = false.
Proof.
  unfold fixed_point. rewrite !existsb_app.
  rewrite (digits_not_special (str_of_N _)) by apply uint_str_digits.
  assert (existsb Csv.special (sign_str s) = false) as -> by (by destruct s).
  destruct p as [|p]; [done|].
  change (existsb Csv.special (Char.DOT :: ?l))
    with (Csv.special Char.DOT || existsb Csv.special l).
  by rewrite digits_not_special by apply fixed_digits_digits.
Qed.

Lemma format_f_not_special p x : existsb Csv.special (format_f p x) = false.
Proof.
  destruct x as [s|[]| |s m e]; try done; apply fixed_point_not_special.
Qed.

(** A row of the report: the word, quoted when it has to be, a comma, the
    score, and the line terminator. *)
Lemma report_row_text (w : str) (f : float) :
  Csv.render_row [w; format_f 3 f] =
    Csv.render_field w ++ [Char.COMMA] ++ format_f 3 f ++ [Char.CR; Char.LF].
Proof.
  unfold Csv.render_row, Csv.lineterminator.
  assert (Csv.render_field (format_f 3 f) = format_f 3 f) as E.
  { unfold Csv.render_field. by rewrite format_f_not_special. }
  destruct w; simpl; rewrite E; by rewrite <- ?app_assoc.
Qed.

#[global] Instance freq_ascending_trans :
  Transitive (λ a b : WordScore, float_ge (freq b) (freq a) = true).
Proof. intros a b c Hab Hbc. by apply (float_ge_trans _ (freq b)). Qed.

(** Entries of equal score are not ordered by [<]. *)
Lemma float_eq_not_lt a b f :
  SFeqb a f = true → SFeqb b f = true → float_lt a b = false.
Proof.
  unfold SFeqb, float_lt, SFltb. intros Ha Hb.
  assert (is_nan a = false ∧ is_nan f = false) as [Na Nf]
    by (by destruct a as [| | |[]], f as [| | |[]]).
  assert (is_nan b = false) as Nb by (by destruct b as [| | |[]], f as [| | |[]]).
  revert Ha Hb. rewrite !SFcompare_rank by done.
  pose proof (lex_compare_spec (rank a) (rank f)) as H1.
  pose proof (lex_compare_spec (rank b) (rank f)) as H2.
  pose proof (lex_compare_spec (rank a) (rank b)) as H3.
  destruct (lex_compare (rank a) (rank f)), (lex_compare (rank b) (rank f)),
    (lex_compare (rank a) (rank b)); try done.
  rewrite H1, H2 in H3. lia.
Qed.

Section ReportFacts.
Variable upper lower : str → str.
Variable zipf_frequency : str → str → float.
Variables (args : Args.t) (σ : world) (text : str).
Hypothesis source_found : files σ !! Args.source args = Some text.

Let scored := scored_set lower zipf_frequency (load_text upper text).
Let dropped := below (Args.threshold args) scored.
Let σ' := (main upper lower zipf_frequency args σ).2.

(** The report events of a run are those of [export_rejects], which runs
    exactly when something was dropped. *)
Lemma main_report_events :
  List.filter is_report_event (events_since σ σ') =
    if list_truthy dropped
    then reject_events (Args.rejects args) (sorted_by float_lt freq dropped)
    else [].
Proof.
  unfold σ'. rewrite (main_events upper lower zipf_frequency args σ text source_found).
  fold scored dropped. rewrite !List.filter_app.
  rewrite (filter_none _ (oracle_events _ _)); cycle 1.
  { unfold oracle_events. rewrite existsb_fmap. apply existsb_const_false. }
  rewrite (filter_none _ (summary_events _ _)) by done.
  simpl. rewrite app_nil_r.
  destruct (list_truthy dropped); [|done].
  apply filter_all. unfold reject_events. simpl.
  rewrite forallb_fmap. apply forallb_const_true.
Qed.

Lemma dropped_numbers it : it ∈ dropped → is_nan (freq it) = false.
Proof.
  unfold dropped. rewrite elem_of_below. intros [_ H].
  by apply float_lt_not_nan in H as [? _].
Qed.

Lemma report_ascending :
  Sorted (λ a b, float_ge (freq b) (freq a) = true)
         (sorted_by float_lt freq dropped).
Proof.
  eapply Sorted_mono; [|apply sorted_by_Sorted, float_lt_asym].
  intros a b Ha Hb. unfold not_after. intros Hlt.
  rewrite sorted_by_perm in Ha, Hb.
  rewrite float_ge_lt by (by apply dropped_numbers). by rewrite Hlt.
Qed.
End ReportFacts.

(** C3. In a run, the reject report is written if and only if dropped is
    not empty. When dropped is empty the run neither opens the report nor
    writes a row, and a report path that is not one of the two word-list
    paths keeps what it held. When dropped is not empty the run opens the
    report and writes the header row [word,zipf_frequency] and then one row
    for each dropped entry, in ascending order of the score, entries of equal
    score in the order of the Scored Set; the file then holds these rows;
    a row is the word, a comma and the score, and the score of every entry
    with a finite score is rendered with exactly three digits after the
    decimal point: its sign, an integer part, the point and three digits,
    which together denote the multiple of 0.001 nearest to the score. *)
Theorem reject_report_iff_dropped (upper lower : str → str)
    (zipf_frequency : str → str → float) (args : Args.t) (σ : world) (text : str) :
  files σ !! Args.source args = Some text →
  let scored := scored_set lower zipf_frequency (load_text upper text) in
  let dropped := below (Args.threshold args) scored in
  let σ' := (main upper lower zipf_frequency args σ).2 in
  let report_events := List.filter is_report_event (events_since σ σ') in
  let path := Args.rejects args in
  let row (it : WordScore) : str :=
    Csv.render_field (word it) ++ [Char.COMMA] ++ format_f 3 (freq it) ++
    [Char.CR; Char.LF] in
  let header : str := py "word,zipf_frequency" ++ [Char.CR; Char.LF] in
  (report_events ≠ [] ↔ dropped ≠ []) ∧
  (dropped = [] →
     report_events = [] ∧
     (path ≠ or_path (Args.output args) (Args.source args) →
      path ≠ Args.guesses_output args →
      files σ' !! path = files σ !! path)) ∧
  (dropped ≠ [] →
     ∃ report : list WordScore,
       report ≡ₚ dropped ∧
       StronglySorted (λ a b, float_ge (freq b) (freq a) = true) report ∧
       (∀ f, List.filter (λ it, SFeqb (freq it) f) report =
             List.filter (λ it, SFeqb (freq it) f) dropped) ∧
       report_events =
         EvOpenW path :: EvWriteRow path header ::
         ((λ it, EvWriteRow path (row it)) <$> report) ∧
       files σ' !! path = Some (header ++ concat (row <$> report)) ∧
       ∀ it, it ∈ report → is_finite (freq it) = true →
             has_decimals 3 (format_f 3 (freq it)) = true ∧
             ∃ ip fp : str,
               format_f 3 (freq it)
                 = sign_str (sign_bit (freq it)) ++ ip ++ Char.DOT :: fp ∧
               forallb Char.isdigit ip = true ∧
               forallb Char.isdigit fp = true ∧
               length fp = 3%nat ∧
               let thousandths := digits_value ip * 1000 + digits_value fp in
               let n := (magnitude (freq it)).1 in
               let d := (magnitude (freq it)).2 in
               2 * thousandths * d ≤ 2 * n * 1000 + d ∧
               2 * n * 1000 ≤ 2 * thousandths * d + d).
Proof.
  intros Hsrc scored dropped σ' report_events path row header.
  pose proof (main_report_events upper lower zipf_frequency args σ text Hsrc) as Hev.
  pose proof (main_files upper lower zipf_frequency args σ text Hsrc) as Hf.
  cbv zeta in Hf.
  fold scored dropped σ' report_events path in Hev, Hf.
  split; [|split].
  - rewrite Hev. by destruct dropped.
  - intros Hd. rewrite Hd in Hev, Hf. simpl in Hev, Hf.
    split; [done|]. intros H1 H2. rewrite Hf.
    by rewrite !lookup_insert_ne.
  - intros Hd. exists (sorted_by float_lt freq dropped).
    assert (list_truthy dropped = true) as Ht by (by destruct dropped).
    rewrite Ht in Hev, Hf.
    split; [apply sorted_by_perm|]. split.
    { apply Sorted_StronglySorted; [apply _|].
      by apply (report_ascending upper lower zipf_frequency args). }
    split.
    { intros f. apply sorted_by_stable. intros a b Ha Hb.
      by apply (float_eq_not_lt _ _ f). }
    assert (∀ l : list WordScore,
      Csv.render_row <$> ((λ item, [word item; format_f 3 (freq item)]) <$> l)
      = row <$> l) as Hrows.
    { intros l. rewrite <- list_fmap_compose. apply list_fmap_ext.
      intros _ it _. apply report_row_text. }
    split.
    { rewrite Hev. unfold reject_events, reject_rows.
      rewrite fmap_cons. f_equal. f_equal.
      rewrite <- !list_fmap_compose. apply list_fmap_ext.
      intros _ it _. simpl. f_equal. apply report_row_text. }
    split.
    { rewrite Hf, lookup_insert_eq. f_equal.
      unfold reject_text, reject_rows. rewrite fmap_cons.
      change (concat (?x :: ?r)) with (x ++ concat r). by rewrite Hrows. }
    intros it _ Hfin. split; [by apply format_f_decimals|].
    destruct (format_f_digits 3 (freq it) Hfin) as (ip & fp & E & H); [done|].
    exists ip, fp. split; [exact E|]. exact H.
Qed.

(** ** Scenario A *)

(** C8. Let the Loader yield APPLE, BERRY, ZYZZX, the oracle score them
    5.32, 4.10 and 0.00, the answer threshold be 3.4 and the guesses
    threshold be unset. Then the run returns, and after the three oracle
    calls it writes the answer-list file with APPLE and BERRY, one per line,
    and the allowed-guesses file with APPLE, BERRY and ZYZZX, one per line,
    then opens the reject report and writes the header row and the single
    row [ZYZZX,0.000]; only prints follow. The report file holds the two
    rows, and each word-list file holds its list unless a later write of
    the run went to its path. *)
Theorem scenario_A (upper lower : str → str)
    (zipf_frequency : str → str → float) (args : Args.t) (σ : world) (text : str) :
  files σ !! Args.source args = Some text →
  load_text upper text = [py "APPLE"; py "BERRY"; py "ZYZZX"] →
  zipf_frequency (lower (py "APPLE")) (py "en") = float_of_decimal 532 2 →
  zipf_frequency (lower (py "BERRY")) (py "en") = float_of_decimal 410 2 →
  zipf_frequency (lower (py "ZYZZX")) (py "en") = float_of_decimal 0 2 →
  Args.threshold args = float_of_decimal 34 1 →
  Args.guesses_threshold args = None →
  let run := main upper lower zipf_frequency args σ in
  let path := Args.rejects args in
  let header := py "word,zipf_frequency" ++ [Char.CR; Char.LF] in
  let row := py "ZYZZX,0.000" ++ [Char.CR; Char.LF] in
  run.1 = Ok tt ∧
  (∃ prints,
     events_since σ run.2 =
       [ EvOracle (lower (py "APPLE")) (py "en");
         EvOracle (lower (py "BERRY")) (py "en");
         EvOracle (lower (py "ZYZZX")) (py "en");
         EvWriteText (or_path (Args.output args) (Args.source args))
           (py "APPLE" ++ [Char.LF] ++ py "BERRY" ++ [Char.LF]);
         EvWriteText (Args.guesses_output args)
           (py "APPLE" ++ [Char.LF] ++ py "BERRY" ++ [Char.LF] ++
            py "ZYZZX" ++ [Char.LF]);
         EvOpenW path;
         EvWriteRow path header;
         EvWriteRow path row ] ++ (EvPrint <$> prints)) ∧
  files run.2 !! path = Some (header ++ row) ∧
  (Args.guesses_output args ≠ path →
   files run.2 !! Args.guesses_output args =
     Some (py "APPLE" ++ [Char.LF] ++ py "BERRY" ++ [Char.LF] ++
           py "ZYZZX" ++ [Char.LF])) ∧
  (or_path (Args.output args) (Args.source args) ≠ path →
   or_path (Args.output args) (Args.source args) ≠ Args.guesses_output args →
   files run.2 !! or_path (Args.output args) (Args.source args) =
     Some (py "APPLE" ++ [Char.LF] ++ py "BERRY" ++ [Char.LF])).
Proof.
  intros Hsrc Hload Ha Hb Hz Ht Hg run path header row.
  pose proof (main_events upper lower zipf_frequency args σ text Hsrc) as Hev.
  pose proof (main_files upper lower zipf_frequency args σ text Hsrc) as Hf.
  cbv zeta in Hf. fold run in Hev, Hf.
  set (scored0 := [mkWordScore (py "APPLE") (float_of_decimal 532 2);
                   mkWordScore (py "BERRY") (float_of_decimal 410 2);
                   mkWordScore (py "ZYZZX") (float_of_decimal 0 2)]).
  assert (scored_set lower zipf_frequency (load_text upper text) = scored0) as Hs.
  { rewrite Hload. unfold scored_set, score. cbn [fmap list_fmap].
    by rewrite Ha, Hb, Hz. }
  rewrite Hs, Ht, Hg in Hev, Hf. cbn [default] in Hev, Hf.
  assert (below (float_of_decimal 34 1) scored0
          = [mkWordScore (py "ZYZZX") (float_of_decimal 0 2)]) as Hd
    by (by vm_compute).
  rewrite Hd in Hev, Hf. cbn [list_truthy] in Hev, Hf.
  split; [by apply (main_returns upper lower zipf_frequency args σ text)|]. split.
  - eexists [_; _; _; _]. rewrite Hev, Hload. unfold summary_events.
    cbn [oracle_events fmap list_fmap app]. by do 3 f_equal.
  - rewrite Hf. split; [apply lookup_insert_eq|]. split.
    + intros H1. rewrite lookup_insert_ne by (intros E; by apply H1).
      apply lookup_insert_eq.
    + intros H1 H2. rewrite lookup_insert_ne by (intros E; by apply H1).
      rewrite lookup_insert_ne by (intros E; by apply H2).
      apply lookup_insert_eq.
Qed.

(** * Worked examples

    The values on the right are those CPython 3.11 gives. *)

Example splitlines_breaks :
  splitlines (py "a" ++ [13; 10] ++ py "b" ++ [10; 10] ++ py "c" ++ [11] ++
              py "d" ++ [0x1C] ++ py "e" ++ [0x85] ++ py "f g" ++ [13; 13] ++
              py "h" ++ [10])
  = [py "a"; py "b"; []; py "c"; py "d"; py "e"; py "f g"; []; py "h"].
Proof. reflexivity. Qed.

Example splitlines_ends :
  splitlines [] = [] ∧ splitlines [10] = [[]] ∧
  splitlines (py "a" ++ [10; 10]) = [py "a"; []].
Proof. repeat split; reflexivity. Qed.

Example strip_unicode :
  strip ([32; 9] ++ py "a b " ++ [0xA0; 0x3000]) = py "a b" ∧
  strip ([0x1C] ++ py " x " ++ [0x1F]) = py "x".
Proof. split; reflexivity. Qed.

Example sorted_words :
  sorted str_lt [py "b"; py "a"; py "B"; py "aa"; []; py "a"]
  = [[]; py "B"; py "a"; py "a"; py "aa"; py "b"].
Proof. reflexivity. Qed.

Example float_literals :
  float_of_decimal 532 2 = S754_finite false 0x1547ae147ae148 (-50) ∧
  float_of_decimal 410 2 = S754_finite false 0x10666666666666 (-50) ∧
  float_of_decimal 34 1 = S754_finite false 0x1b333333333333 (-51) ∧
  float_of_decimal 0 2 = S754_zero false.
Proof. repeat split; reflexivity. Qed.

Example format_f_rounding :
  format_f 3 <$> [ float_of_decimal 532 2; float_of_decimal 625 4;
                   float_of_decimal 1875 4; float_of_decimal 5 4;
                   float_of_decimal (-1) 4; float_of_decimal 1234567895 4;
                   float_of_decimal 9995 4; float_of_decimal 2675 3;
                   S754_finite false 1 (-1074); S754_zero true;
                   float_of_decimal 10000000000000000 0 ]
  = [ py "5.320"; py "0.062"; py "0.188"; py "0.001"; py "-0.000";
      py "123456.789"; py "1.000"; py "2.675"; py "0.000"; py "-0.000";
      py "10000000000000000.000" ] ∧
  format_f 2 <$> [ float_of_decimal 34 1; float_of_decimal 2675 3;
                   float_of_decimal 1875 4 ]
  = [ py "3.40"; py "2.67"; py "0.19" ].
Proof. split; vm_compute; reflexivity. Qed.

Example format_f_not_numbers :
  format_f 3 <$> [S754_infinity false; neg_inf; S754_nan]
  = [py "inf"; py "-inf"; py "nan"].
Proof. reflexivity. Qed.

Example csv_quoting :
  Csv.render_row [py "word"; py "zipf_frequency"]
    = py "word,zipf_frequency" ++ [13; 10] ∧
  Csv.render_row [py "A,B"; py "0.000"]
    = [34] ++ py "A,B" ++ [34] ++ py ",0.000" ++ [13; 10] ∧
  Csv.render_row [py "A" ++ [34] ++ py "B"; py "0.000"]
    = [34] ++ py "A" ++ [34; 34] ++ py "B" ++ [34] ++ py ",0.000" ++ [13; 10] ∧
  Csv.render_row [py "A B"; py "0.000"] = py "A B,0.000" ++ [13; 10] ∧
  Csv.render_row [[]; py "0.000"] = py ",0.000" ++ [13; 10] ∧
  Csv.render_row [[]] = [34; 34; 13; 10].
Proof. repeat split; reflexivity. Qed.

(** A threshold that is NaN keeps nothing and drops nothing: the two
    filters partition the Scored Set only for thresholds and scores that
    are numbers. *)
Example nan_threshold :
  let scored := scored_set ascii_lower scenario_zipf [py "APPLE"; py "ZYZZX"] in
  at_least S754_nan scored = [] ∧ below S754_nan scored = [].
Proof. split; reflexivity. Qed.

(** A score of minus infinity is dropped and written without decimals. *)
Example minus_infinity_score :
  below (float_of_decimal 34 1) [mkWordScore (py "X") neg_inf]
    = [mkWordScore (py "X") neg_inf] ∧
  has_decimals 3 (format_f 3 neg_inf) = false.
Proof. split; reflexivity. Qed.

(** With the defaults of the parser the answer list and the allowed-guesses
    list go to the same path, the source: the second write replaces the
    first. *)
Example default_paths_coincide :
  let σ' := (main ascii_upper ascii_lower scenario_zipf Args.defaults default_world).2 in
  List.filter (λ ev, match ev with EvWriteText _ _ => true | _ => false end)
              (events_since default_world σ')
  = [ EvWriteText (py "server/allowed_guesses.txt")
        (py "APPLE" ++ [10] ++ py "BERRY" ++ [10]);
      EvWriteText (py "server/allowed_guesses.txt")
        (py "APPLE" ++ [10] ++ py "BERRY" ++ [10] ++ py "ZYZZX" ++ [10]) ] ∧
  files σ' !! py "server/allowed_guesses.txt"
  = Some (py "APPLE" ++ [10] ++ py "BERRY" ++ [10] ++ py "ZYZZX" ++ [10]).
Proof. split; vm_compute; reflexivity. Qed.

(** * The claims at concrete inputs *)

Lemma load_words_spec_witness :
  files repeated_world !! py "words.txt" = Some repeated_source ∧
  load_words ascii_upper (py "words.txt") repeated_world =
    (Ok [py "BERRY"; py "APPLE"; py "BERRY"], repeated_world).
Proof.
  assert (files repeated_world !! py "words.txt" = Some repeated_source) as H
    by reflexivity.
  split; [exact H|].
  destruct (load_words_spec ascii_upper (py "words.txt") repeated_world
              repeated_source H) as [W _].
  rewrite W. reflexivity.
Defined.

Lemma score_words_spec_witness :
  ∃ scored σ',
    score_words ascii_lower scenario_zipf [py "APPLE"; py "ZYZZX"; py "APPLE"]
      empty_world = (Ok scored, σ') ∧
    length scored = 3%nat ∧
    events_since empty_world σ' =
      [EvOracle (py "apple") (py "en"); EvOracle (py "zyzzx") (py "en");
       EvOracle (py "apple") (py "en")].
Proof.
  destruct (score_words_spec ascii_lower scenario_zipf
              [py "APPLE"; py "ZYZZX"; py "APPLE"] empty_world)
    as (scored & σ' & E & Hlen & _ & _ & Hev & _).
  exists scored, σ'. split; [exact E|]. split; [exact Hlen|]. exact Hev.
Defined.

Lemma main_missing_source_witness :
  files empty_world !! Args.source scenario_args = None ∧
  exit_status (main ascii_upper ascii_lower scenario_zipf scenario_args empty_world).1
    ≠ 0%Z ∧
  (main ascii_upper ascii_lower scenario_zipf scenario_args empty_world).2
    = empty_world.
Proof.
  assert (files empty_world !! Args.source scenario_args = None) as H
    by reflexivity.
  split; [exact H|].
  destruct (main_missing_source ascii_upper ascii_lower scenario_zipf
              scenario_args empty_world H) as (_ & Hexit & Hworld & _).
  split; [exact Hexit|exact Hworld].
Defined.

Lemma partition_exact_witness :
  let t := float_of_decimal 34 1 in
  let scored :=
    scored_set ascii_lower scenario_zipf
      [py "APPLE"; py "BERRY"; py "ZYZZX"; py "APPLE"] in
  is_nan t = false ∧
  Forall (λ it, is_nan (freq it) = false) scored ∧
  (length (at_least t scored) + length (below t scored) = length scored)%nat ∧
  scored ≡ₚ at_least t scored ++ below t scored.
Proof.
  intros t scored.
  assert (is_nan t = false) as Ht by reflexivity.
  assert (Forall (λ it, is_nan (freq it) = false) scored) as Hs
    by (repeat constructor).
  split; [exact Ht|]. split; [exact Hs|].
  destruct (partition_exact ascii_lower scenario_zipf t scored Ht Hs)
    as (_ & _ & _ & _ & _ & Hlen & Hperm & _).
  split; [exact Hlen|exact Hperm].
Defined.

Lemma threshold_antitone_witness :
  float_ge (float_of_decimal 34 1) (float_of_decimal 0 2) = true ∧
  ∀ scored it,
    it ∈ at_least (float_of_decimal 34 1) scored →
    it ∈ at_least (float_of_decimal 0 2) scored.
Proof.
  assert (float_ge (float_of_decimal 34 1) (float_of_decimal 0 2) = true) as H
    by reflexivity.
  split; [exact H|].
  destruct (threshold_antitone ascii_upper ascii_lower scenario_zipf
              (float_of_decimal 0 2) (float_of_decimal 34 1) H) as [W _].
  exact W.
Defined.

Lemma allowed_is_independent_filter_witness :
  let scored := scored_set ascii_lower scenario_zipf
                  (load_text ascii_upper scenario_source) in
  files scenario_world !! Args.source scenario_args = Some scenario_source ∧
  EvWriteText (py "guesses.txt")
    (join [Char.LF] (sorted str_lt (word <$> scored)) ++ [Char.LF])
    ∈ events_since scenario_world
        (main ascii_upper ascii_lower scenario_zipf scenario_args scenario_world).2.
Proof.
  intros scored.
  assert (files scenario_world !! Args.source scenario_args = Some scenario_source)
    as H by reflexivity.
  split; [exact H|].
  destruct (allowed_is_independent_filter ascii_upper ascii_lower scenario_zipf
              scenario_args scenario_world scenario_source H) as [W _].
  exact W.
Defined.

Lemma reject_report_iff_dropped_witness :
  let run := main ascii_upper ascii_lower scenario_zipf strict_args scenario_world in
  let dropped :=
    below (Args.threshold strict_args)
      (scored_set ascii_lower scenario_zipf (load_text ascii_upper scenario_source)) in
  files scenario_world !! Args.source strict_args = Some scenario_source ∧
  (List.filter is_report_event (events_since scenario_world run.2) ≠ [] ↔
   dropped ≠ []) ∧
  (∃ report : list WordScore,
     report ≡ₚ dropped ∧
     files run.2 !! py "rejects.csv" =
       Some (py "word,zipf_frequency" ++ [Char.CR; Char.LF] ++
             concat ((λ it, Csv.render_field (word it) ++ [Char.COMMA] ++
                            format_f 3 (freq it) ++ [Char.CR; Char.LF])
                     <$> report))) ∧
  files run.2 !! py "rejects.csv" =
    Some (py "word,zipf_frequency" ++ [Char.CR; Char.LF] ++
          py "ZYZZX,0.000" ++ [Char.CR; Char.LF] ++
          py "BERRY,4.100" ++ [Char.CR; Char.LF] ++
          py "APPLE,5.320" ++ [Char.CR; Char.LF]).
Proof.
  intros run dropped.
  assert (files scenario_world !! Args.source strict_args = Some scenario_source)
    as H by reflexivity.
  assert (dropped ≠ []) as Hd by (vm_compute; discriminate).
  split; [exact H|].
  destruct (reject_report_iff_dropped ascii_upper ascii_lower scenario_zipf
              strict_args scenario_world scenario_source H) as (W1 & _ & W3).
  split; [exact W1|].
  destruct (W3 Hd) as (report & Hp & _ & _ & _ & Hf & _).
  split; [exists report; split; [exact Hp|exact Hf]|].
  vm_compute. reflexivity.
Defined.

Lemma word_lists_sorted_witness :
  files scenario_world !! Args.source scenario_args = Some scenario_source ∧
  files (main ascii_upper ascii_lower scenario_zipf scenario_args scenario_world).2
    !! py "answers.txt" =
    Some (py "APPLE" ++ [Char.LF] ++ py "BERRY" ++ [Char.LF]).
Proof.
  assert (files scenario_world !! Args.source scenario_args = Some scenario_source)
    as H by reflexivity.
  split; [exact H|].
  destruct (word_lists_sorted ascii_upper ascii_lower scenario_zipf
              scenario_args scenario_world scenario_source H)
    as (_ & _ & W & _).
  apply W; [intros E|intros _ E]; vm_compute in E; discriminate E.
Defined.

Lemma empty_list_writes_newline_witness :
  files scenario_world !! Args.source strict_args = Some scenario_source ∧
  at_least (Args.threshold strict_args)
    (scored_set ascii_lower scenario_zipf (load_text ascii_upper scenario_source))
    = [] ∧
  EvWriteText (py "answers.txt") [Char.LF]
    ∈ events_since scenario_world
        (main ascii_upper ascii_lower scenario_zipf strict_args scenario_world).2.
Proof.
  assert (files scenario_world !! Args.source strict_args = Some scenario_source)
    as H by reflexivity.
  assert (at_least (Args.threshold strict_args)
            (scored_set ascii_lower scenario_zipf
               (load_text ascii_upper scenario_source)) = []) as He
    by reflexivity.
  split; [exact H|]. split; [exact He|].
  destruct (empty_list_writes_newline ascii_upper ascii_lower scenario_zipf
              strict_args scenario_world scenario_source H) as (_ & W & _).
  exact (W He).
Defined.

Lemma scenario_A_witness :
  files scenario_world !! Args.source scenario_args = Some scenario_source ∧
  load_text ascii_upper scenario_source = [py "APPLE"; py "BERRY"; py "ZYZZX"] ∧
  files (main ascii_upper ascii_lower scenario_zipf scenario_args scenario_world).2
    !! py "rejects.csv" =
    Some (py "word,zipf_frequency" ++ [Char.CR; Char.LF] ++
          py "ZYZZX,0.000" ++ [Char.CR; Char.LF]).
Proof.
  assert (files scenario_world !! Args.source scenario_args = Some scenario_source)
    as H by reflexivity.
  assert (load_text ascii_upper scenario_source
          = [py "APPLE"; py "BERRY"; py "ZYZZX"]) as Hl by reflexivity.
  split; [exact H|]. split; [exact Hl|].
  destruct (scenario_A ascii_upper ascii_lower scenario_zipf scenario_args
              scenario_world scenario_source H Hl
              eq_refl eq_refl eq_refl eq_refl eq_refl) as (_ & _ & W & _).
  exact W.
Defined.

(** * Further properties of the script *)

(** ** Saving and loading *)

Lemma splitlines_from_line cur w rest :
  existsb Char.islinebreak w = false →
  splitlines_from cur (w ++ Char.LF :: rest)
    = (reverse cur ++ w) :: splitlines_from [] rest.
Proof.
  revert cur. induction w as [|c w IH]; intros cur Hw.
  - simpl. rewrite app_nil_r. by destruct rest.
  - simpl in Hw. apply orb_false_iff in Hw as [Hc Hw].
    simpl. rewrite Hc. rewrite IH by done.
    by rewrite reverse_cons, <- app_assoc.
Qed.

(** A text made of lines that hold no line boundary, each ended by a
    newline, splits into these lines. *)
Lemma splitlines_lines (ws : list str) :
  forallb (λ w, negb (existsb Char.islinebreak w)) ws = true →
  splitlines (concat ((λ w, w ++ [Char.LF]) <$> ws)) = ws.
Proof.
  unfold splitlines. induction ws as [|w ws IH]; [done|].
  intros [Hw Hws]%andb_true_iff. apply negb_true_iff in Hw.
  rewrite fmap_cons. cbn [concat]. rewrite <- app_assoc.
  change ([Char.LF] ++ ?r) with (Char.LF :: r).
  rewrite splitlines_from_line by done. by rewrite IH.
Qed.

Lemma normal_spec upper w :
  normal upper w = true ↔
  w ≠ [] ∧ existsb Char.islinebreak w = false ∧ strip w = w ∧ upper w = w.
Proof.
  unfold normal. rewrite !andb_true_iff, negb_true_iff, !bool_decide_eq_true.
  destruct w; simpl; intuition congruence.
Qed.

(** The Loader reads a saved list of normal words back as it is. *)
Lemma load_text_saved upper (ws : list str) :
  forallb (normal upper) ws = true →
  load_text upper (join [Char.LF] ws ++ [Char.LF]) = ws.
Proof.
  intros Hn. destruct (decide (ws = [])) as [->|Hne]; [done|].
  rewrite join_lines by done. unfold load_text.
  rewrite forallb_forall in Hn.
  rewrite splitlines_lines; cycle 1.
  { apply forallb_forall. intros w Hw.
    apply Hn, normal_spec in Hw as (_ & -> & _). done. }
  clear Hne. induction ws as [|w ws IH]; [done|].
  destruct (proj1 (normal_spec upper w) (Hn w (or_introl eq_refl)))
    as (Hw & _ & Hs & Hu).
  cbn [List.filter]. rewrite Hs.
  assert (str_truthy w = true) as -> by (by destruct w).
  rewrite fmap_cons, Hs, Hu. f_equal. apply IH. intros w' Hw'. apply Hn. by right.
Qed.

(** X1. Saving a list of normal words and loading the file again gives the
    list back, the empty list included; the file holds the words joined by
    newlines and a final newline. *)
Theorem save_then_load (upper : str → str) (path : Path) (ws : list str)
    (σ : world) :
  forallb (normal upper) ws = true →
  (save_words path ws;; load_words upper path) σ =
    (Ok ws,
     World (<[path := join [Char.LF] ws ++ [Char.LF]]> (files σ))
           (log σ ++ [EvWriteText path (join [Char.LF] ws ++ [Char.LF])])).
Proof.
  intros Hn. erewrite bind_ok; [|reflexivity].
  erewrite load_words_run; [|simpl; apply lookup_insert_eq].
  by rewrite load_text_saved.
Qed.

(** ** A source without words *)

Lemma blank_lines text :
  forallb Char.isspace text = true →
  Forall (λ l, forallb Char.isspace l = true) (splitlines text).
Proof.
  intros Ht. apply Forall_forall. intros l Hl.
  apply forallb_forall. intros c Hc.
  assert (In c (concat (splitlines text))) as Hin.
  { apply in_concat. exists l. split; [by apply list_elem_of_In|done]. }
  rewrite splitlines_chars in Hin. apply filter_In in Hin as [Hin _].
  rewrite forallb_forall in Ht. by apply Ht.
Qed.

(** A text made of whitespace only, the empty text included, holds no
    word. *)
Lemma load_text_blank upper text :
  forallb Char.isspace text = true → load_text upper text = [].
Proof.
  intros Ht. unfold load_text.
  pose proof (blank_lines text Ht) as Hl.
  induction Hl as [|l ls Hl _ IH]; [done|]. simpl.
  rewrite str_truthy_strip, Hl. simpl. apply IH.
Qed.

(** X2. When the source file holds whitespace only (or nothing), the run
    scores nothing, writes a single newline to the answer list and to the
    allowed-guesses list, writes no report, prints a summary with three
    zero counts, and returns. *)
Theorem blank_source_run (upper lower : str → str)
    (zipf_frequency : str → str → float) (args : Args.t) (σ : world) (text : str) :
  files σ !! Args.source args = Some text →
  forallb Char.isspace text = true →
  let run := main upper lower zipf_frequency args σ in
  let out := or_path (Args.output args) (Args.source args) in
  run.1 = Ok tt ∧
  events_since σ run.2 =
    [ EvWriteText out [Char.LF];
      EvWriteText (Args.guesses_output args) [Char.LF];
      EvPrint (py "Words loaded: 0");
      EvPrint (py "Kept: 0 (threshold >= " ++ format_f 2 (Args.threshold args)
               ++ py ")");
      EvPrint (py "Removed: 0 (details: " ++ Args.rejects args ++ py ")");
      EvPrint (py "Wrote curated list to: " ++ out) ].
Proof.
  intros Hsrc Ht run out.
  split; [by apply (main_returns upper lower zipf_frequency args σ text)|].
  unfold run. rewrite (main_events upper lower zipf_frequency args σ text Hsrc).
  by rewrite (load_text_blank upper text Ht).
Qed.

(** ** The word lists do not depend on the order of the source *)

Lemma filter_perm {A} (f : A → bool) (l l' : list A) :
  l ≡ₚ l' → List.filter f l ≡ₚ List.filter f l'.
Proof.
  induction 1 as [|x l l' _ IH|x y l|l l' l'' _ IH1 _ IH2]; simpl.
  - done.
  - destruct (f x); by rewrite IH.
  - destruct (f x), (f y); try done. apply Permutation_swap.
  - by rewrite IH1.
Qed.

Lemma sorted_str_perm_eq (l l' : list str) :
  l ≡ₚ l' → sorted str_lt l = sorted str_lt l'.
Proof.
  intros Hp. apply sorted_str_unique; [|apply sorted_str_Sorted].
  by rewrite sorted_str_perm.
Qed.

Lemma sorted_words_perm (t : float) (scored scored' : list WordScore) :
  scored ≡ₚ scored' →
  sorted str_lt (word <$> at_least t scored)
    = sorted str_lt (word <$> at_least t scored').
Proof.
  intros Hp. apply sorted_str_perm_eq. apply fmap_Permutation.
  by apply filter_perm.
Qed.

Section WriteFacts.
Variable upper lower : str → str.
Variable zipf_frequency : str → str → float.
Variables (args : Args.t) (σ : world) (text : str).
Hypothesis source_found : files σ !! Args.source args = Some text.

Let scored := scored_set lower zipf_frequency (load_text upper text).
Let σ' := (main upper lower zipf_frequency args σ).2.

(** The calls of [write_text] in a run: the answer list, then the
    allowed-guesses list. *)
Lemma main_write_text_events :
  List.filter is_write_text (events_since σ σ') =
    [EvWriteText (or_path (Args.output args) (Args.source args))
       (join [Char.LF]
          (sorted str_lt (word <$> at_least (Args.threshold args) scored))
        ++ [Char.LF]);
     EvWriteText (Args.guesses_output args)
       (join [Char.LF]
          (sorted str_lt
             (word <$> at_least (default neg_inf (Args.guesses_threshold args))
                         scored))
        ++ [Char.LF])].
Proof.
  unfold σ'. rewrite (main_events upper lower zipf_frequency args σ text source_found).
  fold scored. rewrite !List.filter_app.
  rewrite (filter_none _ (oracle_events _ _)); cycle 1.
  { unfold oracle_events. rewrite existsb_fmap. apply existsb_const_false. }
  rewrite (filter_none _ (summary_events _ _)) by done.
  rewrite (filter_none _ (if list_truthy _ then _ else _)); [done|].
  destruct (list_truthy _); [|done].
  unfold reject_events. simpl. rewrite existsb_fmap. apply existsb_const_false.
Qed.
End WriteFacts.

(** X3. The two word lists a run writes depend on the words of the source
    but not on their order: two runs with the same arguments whose sources
    hold the same words, each as often, in any order, make the same
    [write_text] calls. *)
Theorem word_lists_order_independent (upper lower : str → str)
    (zipf_frequency : str → str → float) (args : Args.t)
    (σ1 σ2 : world) (text1 text2 : str) :
  files σ1 !! Args.source args = Some text1 →
  files σ2 !! Args.source args = Some text2 →
  load_text upper text1 ≡ₚ load_text upper text2 →
  List.filter is_write_text
    (events_since σ1 (main upper lower zipf_frequency args σ1).2)
  = List.filter is_write_text
      (events_since σ2 (main upper lower zipf_frequency args σ2).2).
Proof.
  intros H1 H2 Hp.
  rewrite (main_write_text_events upper lower zipf_frequency args σ1 text1 H1).
  rewrite (main_write_text_events upper lower zipf_frequency args σ2 text2 H2).
  assert (scored_set lower zipf_frequency (load_text upper text1)
          ≡ₚ scored_set lower zipf_frequency (load_text upper text2)) as Hs
    by (by apply fmap_Permutation).
  by rewrite !(sorted_words_perm _ _ _ Hs).
Qed.

(** ** Running the script again *)

Section ScoredFacts.
Variable lower : str → str.
Variable zipf_frequency : str → str → float.

Lemma scored_set_words ws : word <$> scored_set lower zipf_frequency ws = ws.
Proof.
  unfold scored_set. rewrite <- list_fmap_compose. apply list_fmap_id.
Qed.

(** A kept word is a source word whose score reaches the threshold. *)
Lemma kept_word t ws w :
  w ∈ word <$> at_least t (scored_set lower zipf_frequency ws) →
  w ∈ ws ∧ float_ge (zipf_frequency (lower w) (py "en")) t = true.
Proof.
  intros (it & -> & [Hit Hge]%elem_of_at_least)%list_elem_of_fmap.
  unfold scored_set in Hit. apply list_elem_of_fmap in Hit as (w & -> & Hw).
  done.
Qed.

(** Words that all reach the threshold are all kept and none is dropped. *)
Lemma all_kept t ws :
  Forall (λ w, float_ge (zipf_frequency (lower w) (py "en")) t = true) ws →
  at_least t (scored_set lower zipf_frequency ws) = scored_set lower zipf_frequency ws ∧
  below t (scored_set lower zipf_frequency ws) = [].
Proof.
  induction 1 as [|w ws Hw _ [IH1 IH2]]; [done|].
  unfold at_least, below in *. simpl. rewrite Hw.
  destruct (float_ge_not_nan _ _ Hw) as [Ha Hb].
  rewrite (float_ge_lt _ _ Ha Hb) in Hw. apply negb_true_iff in Hw.
  rewrite Hw. by rewrite IH1.
Qed.
End ScoredFacts.

Lemma sorted_str_idem (l : list str) :
  sorted str_lt (sorted str_lt l) = sorted str_lt l.
Proof. apply sorted_str_perm_eq, sorted_str_perm. Qed.

(** X4. A curated list is a fixed point. Let the source file hold the
    answer list that curating a text of normal words gives, saved one word
    per line, as it does after a run that wrote its answer list over its
    source. A run with the same threshold returns, loads exactly that list,
    keeps every word of it and drops none, writes as answer list the text
    the source held, and writes no report. *)
Theorem curated_source_fixed_point (upper lower : str → str)
    (zipf_frequency : str → str → float) (args : Args.t) (σ : world) (text : str) :
  forallb (normal upper) (load_text upper text) = true →
  let answers :=
    sorted str_lt
      (word <$> at_least (Args.threshold args)
                  (scored_set lower zipf_frequency (load_text upper text))) in
  files σ !! Args.source args = Some (join [Char.LF] answers ++ [Char.LF]) →
  let run := main upper lower zipf_frequency args σ in
  load_text upper (join [Char.LF] answers ++ [Char.LF]) = answers ∧
  run.1 = Ok tt ∧
  at_least (Args.threshold args) (scored_set lower zipf_frequency answers)
    = scored_set lower zipf_frequency answers ∧
  below (Args.threshold args) (scored_set lower zipf_frequency answers) = [] ∧
  EvWriteText (or_path (Args.output args) (Args.source args))
    (join [Char.LF] answers ++ [Char.LF]) ∈ events_since σ run.2 ∧
  List.filter is_report_event (events_since σ run.2) = [].
Proof.
  intros Hn answers H1 run.
  set (t := Args.threshold args).
  set (ws := load_text upper text) in *.
  (* the answers are source words that reach the threshold *)
  assert (∀ w, w ∈ answers →
            w ∈ ws ∧ float_ge (zipf_frequency (lower w) (py "en")) t = true) as Hans.
  { intros w Hw. unfold answers in Hw. rewrite sorted_str_perm in Hw.
    by apply kept_word in Hw. }
  assert (forallb (normal upper) answers = true) as Hnorm.
  { apply forallb_forall. intros w Hw%list_elem_of_In.
    rewrite forallb_forall in Hn. apply Hn, list_elem_of_In. by apply Hans. }
  assert (load_text upper (join [Char.LF] answers ++ [Char.LF]) = answers) as Hload
    by (by apply load_text_saved).
  destruct (all_kept lower zipf_frequency t answers) as [Hkept Hdropped].
  { apply Forall_forall. intros w Hw. by apply Hans. }
  split; [done|].
  split; [by apply (main_returns upper lower zipf_frequency args _ _ H1)|].
  split; [done|]. split; [done|]. split.
  - pose proof (main_writes_answers upper lower zipf_frequency args _ _ H1) as Hw.
    rewrite Hload in Hw. fold t in Hw. rewrite Hkept, scored_set_words in Hw.
    assert (sorted str_lt answers = answers) as E by apply sorted_str_idem.
    by rewrite E in Hw.
  - unfold run.
    rewrite (main_report_events upper lower zipf_frequency args _ _ H1).
    rewrite Hload. fold t. by rewrite Hdropped.
Qed.

(** X5. Running over one's own output gives the same word lists. Let a run
    load normal words from its source, and let the source of a second run
    with the same arguments hold these words sorted and saved one per line,
    as the first run leaves them when its allowed-guesses list holds every
    word and goes to the source path. The second run loads exactly these
    words and makes the same [write_text] calls as the first. *)
Theorem rerun_over_source (upper lower : str → str)
    (zipf_frequency : str → str → float) (args : Args.t) (σ1 σ2 : world)
    (text : str) :
  files σ1 !! Args.source args = Some text →
  forallb (normal upper) (load_text upper text) = true →
  let all_words := sorted str_lt (load_text upper text) in
  files σ2 !! Args.source args = Some (join [Char.LF] all_words ++ [Char.LF]) →
  load_text upper (join [Char.LF] all_words ++ [Char.LF]) = all_words ∧
  List.filter is_write_text
    (events_since σ2 (main upper lower zipf_frequency args σ2).2)
  = List.filter is_write_text
      (events_since σ1 (main upper lower zipf_frequency args σ1).2).
Proof.
  intros H1 Hn all_words H2.
  set (ws := load_text upper text) in *.
  assert (forallb (normal upper) all_words = true) as Hnorm.
  { apply forallb_forall. intros w Hw%list_elem_of_In.
    unfold all_words in Hw. rewrite sorted_str_perm in Hw.
    rewrite forallb_forall in Hn. by apply Hn, list_elem_of_In. }
  assert (load_text upper (join [Char.LF] all_words ++ [Char.LF]) = all_words)
    as Hload by (by apply load_text_saved).
  assert (scored_set lower zipf_frequency all_words
          ≡ₚ scored_set lower zipf_frequency ws) as Hperm.
  { apply fmap_Permutation. apply sorted_str_perm. }
  split; [done|].
  rewrite (main_write_text_events upper lower zipf_frequency args _ _ H2).
  rewrite (main_write_text_events upper lower zipf_frequency args _ _ H1).
  rewrite Hload. fold ws. by rewrite !(sorted_words_perm _ _ _ Hperm).
Qed.

(** ** The rows of the report identify the words *)

Lemma escape_inj a b : Csv.escape a = Csv.escape b → a = b.
Proof.
  revert b. induction a as [|c a IH]; intros [|d b]; simpl.
  - done.
  - by destruct (d =? Char.QUOTE).
  - by destruct (c =? Char.QUOTE).
  - destruct (N.eqb_spec c Char.QUOTE) as [->|Hc],
      (N.eqb_spec d Char.QUOTE) as [->|Hd].
    + intros [= E]. f_equal. by apply IH.
    + intros [= E _]. congruence.
    + intros [= E _]. congruence.
    + intros [= -> E]. f_equal. by apply IH.
Qed.

Lemma render_field_inj a b : Csv.render_field a = Csv.render_field b → a = b.
Proof.
  unfold Csv.render_field.
  destruct (existsb Csv.special a) eqn:Ha, (existsb Csv.special b) eqn:Hb.
  - intros [= E]. apply app_inj_tail in E as [E _]. by apply escape_inj.
  - intros <-. simpl in Hb. done.
  - intros ->. simpl in Ha. done.
  - done.
Qed.

(** Two texts cut at their first comma agree on both sides of it. *)
Lemma split_at_first (c : N) (x x' y y' : str) :
  existsb (N.eqb c) x = false → existsb (N.eqb c) x' = false →
  x ++ c :: y = x' ++ c :: y' → x = x' ∧ y = y'.
Proof.
  revert x'. induction x as [|a x IH]; intros [|a' x']; simpl.
  - by intros _ _ [= ->].
  - intros _ [Ha _]%orb_false_iff [= <- _]. by rewrite N.eqb_refl in Ha.
  - intros [Ha _]%orb_false_iff _ [= -> _]. by rewrite N.eqb_refl in Ha.
  - intros [_ Hx]%orb_false_iff [_ Hx']%orb_false_iff [= -> E].
    destruct (IH x' Hx Hx' E) as [-> ->]. done.
Qed.

Lemma no_special_no_comma (s : str) :
  existsb Csv.special s = false → existsb (N.eqb Char.COMMA) s = false.
Proof.
  induction s as [|c s IH]; [done|]. cbn [existsb].
  intros [Hc Hs]%orb_false_iff. rewrite (IH Hs), orb_false_r.
  apply N.eqb_neq. intros <-. discriminate Hc.
Qed.

(** X6. The row of the report determines the word and the rendered score:
    entries with different words never give the same row, whatever commas
    and quotes the words hold. *)
Theorem report_row_injective (w1 w2 : str) (f1 f2 : float) :
  Csv.render_row [w1; format_f 3 f1] = Csv.render_row [w2; format_f 3 f2] →
  w1 = w2 ∧ format_f 3 f1 = format_f 3 f2.
Proof.
  rewrite !report_row_text. intros E.
  rewrite !app_assoc in E. apply app_inv_tail in E.
  rewrite <- !app_assoc in E.
  apply (f_equal reverse) in E. rewrite !reverse_app in E.
  change (reverse [Char.COMMA]) with [Char.COMMA] in E.
  rewrite <- !app_assoc in E.
  change ([Char.COMMA] ++ ?r) with (Char.COMMA :: r) in E.
  apply split_at_first in E as [Ef Ew].
  - apply (inj reverse) in Ef, Ew. split; [by apply render_field_inj|done].
  - rewrite existsb_reverse. apply no_special_no_comma, format_f_not_special.
  - rewrite existsb_reverse. apply no_special_no_comma, format_f_not_special.
Qed.

(** ** The accuracy of the rendering *)

(** X9. The rendering of a finite float with [p > 0] decimals is its sign,
    digits, a point and [p] digits, and these digits denote the multiple of
    [10^-p] nearest to the magnitude of the float: the score in the report
    is within half a thousandth of the score. *)
Theorem format_f_nearest (p : nat) (x : float) :
  is_finite x = true → p ≠ O →
  ∃ ip fp : str,
    format_f p x = sign_str (sign_bit x) ++ ip ++ Char.DOT :: fp ∧
    forallb Char.isdigit ip = true ∧
    forallb Char.isdigit fp = true ∧
    length fp = p ∧
    let K := digits_value ip * 10 ^ N.of_nat p + digits_value fp in
    let n := (magnitude x).1 in
    let d := (magnitude x).2 in
    2 * K * d ≤ 2 * n * 10 ^ N.of_nat p + d ∧
    2 * n * 10 ^ N.of_nat p ≤ 2 * K * d + d.
Proof.
  intros Hx Hp.
  assert (∀ s K, ∃ ip fp : str,
    sign_str s ++ fixed_point p K = sign_str s ++ ip ++ Char.DOT :: fp ∧
    forallb Char.isdigit ip = true ∧ forallb Char.isdigit fp = true ∧
    length fp = p ∧
    digits_value ip * 10 ^ N.of_nat p + digits_value fp = K) as Hfp.
  { intros s K. eexists _, _. unfold fixed_point.
    destruct p as [|p']; [done|]. split; [reflexivity|].
    split; [apply uint_str_digits|]. split; [apply fixed_digits_digits|].
    split; [apply fixed_digits_length|]. apply fixed_point_value. }
  destruct x as [s| | |s m e]; try done; cbn [format_f sign_bit].
  - destruct (Hfp s 0) as (ip & fp & E & Hi & Hf & Hl & HK).
    exists ip, fp. repeat (split; [done|]). cbv zeta. rewrite HK. simpl. lia.
  - destruct (Hfp s (scale10 p m e)) as (ip & fp & E & Hi & Hf & Hl & HK).
    exists ip, fp. repeat (split; [done|]). cbv zeta. rewrite HK.
    apply (scale10_nearest p s m e).
Qed.

(** ** Every word goes to the answer list or to the report *)

Lemma list_truthy_perm {A} (l l' : list A) :
  l ≡ₚ l' → list_truthy l = list_truthy l'.
Proof.
  intros Hp. destruct l, l'; try done.
  - by apply Permutation_nil_cons in Hp.
  - symmetry in Hp. by apply Permutation_nil_cons in Hp.
Qed.

(** X7. No word is lost. In a run whose threshold and scores are numbers,
    the words loaded from the source are, each as often as it occurs, the
    words of the answer list together with the words of the rows of the
    report; a word is never in both. *)
Theorem nothing_lost (upper lower : str → str)
    (zipf_frequency : str → str → float) (args : Args.t) (σ : world) (text : str) :
  files σ !! Args.source args = Some text →
  is_nan (Args.threshold args) = false →
  Forall (λ it, is_nan (freq it) = false)
         (scored_set lower zipf_frequency (load_text upper text)) →
  let scored := scored_set lower zipf_frequency (load_text upper text) in
  let events := events_since σ (main upper lower zipf_frequency args σ).2 in
  let answers := sorted str_lt (word <$> at_least (Args.threshold args) scored) in
  let report := sorted_by float_lt freq (below (Args.threshold args) scored) in
  EvWriteText (or_path (Args.output args) (Args.source args))
    (join [Char.LF] answers ++ [Char.LF]) ∈ events ∧
  List.filter is_report_event events =
    (if list_truthy report then reject_events (Args.rejects args) report else []) ∧
  load_text upper text ≡ₚ answers ++ (word <$> report) ∧
  (length answers + length report = length (load_text upper text))%nat ∧
  (∀ w, w ∈ answers → w ∉ word <$> report).
Proof.
  intros Hsrc Ht Hnum scored events answers report.
  split; [by apply main_writes_answers|]. split.
  { unfold events.
    rewrite (main_report_events upper lower zipf_frequency args σ text Hsrc).
    fold scored. unfold report.
    by rewrite (list_truthy_perm _ _ (sorted_by_perm float_lt freq _)). }
  assert (load_text upper text ≡ₚ answers ++ (word <$> report)) as Hp.
  { unfold answers, report, sorted. rewrite !sorted_by_perm.
    rewrite <- fmap_app.
    rewrite <- (scored_set_words lower zipf_frequency (load_text upper text)) at 1.
    fold scored. apply fmap_Permutation.
    unfold scored. rewrite (below_complement _ _ Ht Hnum). apply filter_split_perm. }
  split; [done|]. split.
  { rewrite Hp, length_app, length_fmap. done. }
  intros w Hw Hr. unfold answers, sorted in Hw. unfold report in Hr.
  rewrite sorted_by_perm in Hw. rewrite sorted_by_perm in Hr.
  apply kept_word in Hw as [_ Hge].
  apply list_elem_of_fmap in Hr as (it & -> & [Hit Hlt]%elem_of_below).
  unfold scored, scored_set in Hit.
  apply list_elem_of_fmap in Hit as (w & -> & _). simpl in Hge, Hlt.
  destruct (float_ge_not_nan _ _ Hge) as [Ha Hb].
  rewrite (float_ge_lt _ _ Ha Hb), Hlt in Hge. done.
Qed.

(** ** Raising the threshold *)

Lemma float_lt_ge_trans a t1 t2 :
  float_lt a t1 = true → float_ge t2 t1 = true → float_lt a t2 = true.
Proof.
  intros H1 H2.
  destruct (float_lt_not_nan _ _ H1) as [Ha Ht1].
  destruct (float_ge_not_nan _ _ H2) as [Ht2 _].
  revert H1 H2. unfold float_lt, float_ge, SFltb, SFleb.
  rewrite !SFcompare_rank by done.
  pose proof (lex_compare_spec (rank a) (rank t1)) as Hat1.
  pose proof (lex_compare_spec (rank t1) (rank t2)) as Ht.
  pose proof (lex_compare_spec (rank a) (rank t2)) as Hat2.
  destruct (lex_compare (rank a) (rank t1)), (lex_compare (rank t1) (rank t2)),
    (lex_compare (rank a) (rank t2)); try done; intros _ _;
    try (rewrite ?Ht, ?Hat2 in * ); lia.
Qed.

(** X8. Raising the answer threshold only moves entries from kept to
    dropped: for [t1 <= t2] the entries dropped at [t1] are, in order, among
    those dropped at [t2], so the report never gets shorter and the answer
    list never gets longer. *)
Theorem dropped_monotone (t1 t2 : float) (scored : list WordScore) :
  float_ge t2 t1 = true →
  sublist (below t1 scored) (below t2 scored) ∧
  (length (below t1 scored) ≤ length (below t2 scored))%nat ∧
  (length (at_least t2 scored) ≤ length (at_least t1 scored))%nat.
Proof.
  intros H.
  assert (below t1 scored = below t1 (below t2 scored)) as E.
  { unfold below. induction scored as [|it scored IH]; [done|]. simpl.
    destruct (float_lt (freq it) t1) eqn:E1.
    - rewrite (float_lt_ge_trans _ _ _ E1 H). simpl. rewrite E1. by f_equal.
    - destruct (float_lt (freq it) t2); simpl; rewrite ?E1; done. }
  assert (sublist (below t1 scored) (below t2 scored)) as Hsub
    by (rewrite E; apply filter_sublist).
  split; [done|]. split; [by apply sublist_length|].
  rewrite (at_least_antitone _ _ _ H). apply sublist_length, filter_sublist.
Qed.

(** ** What a run touches, and in which order *)

(** X10. A run writes only where its arguments say. Every [write_text]
    call goes to the answer-list path or to the allowed-guesses path, a file
    is opened for writing and rows are written only at the rejects path, so
    every write of the run is addressed to one of the three paths; this
    holds whether or not the source exists. *)
Theorem writes_only_outputs (upper lower : str → str)
    (zipf_frequency : str → str → float) (args : Args.t) (σ : world) :
  let events := events_since σ (main upper lower zipf_frequency args σ).2 in
  let out := or_path (Args.output args) (Args.source args) in
  (∀ p data, EvWriteText p data ∈ events → p = out ∨ p = Args.guesses_output args) ∧
  (∀ p, EvOpenW p ∈ events → p = Args.rejects args) ∧
  (∀ p line, EvWriteRow p line ∈ events → p = Args.rejects args) ∧
  (∀ ev q, ev ∈ events → event_path ev = Some q →
           q = out ∨ q = Args.guesses_output args ∨ q = Args.rejects args).
Proof.
  intros events out.
  assert (∀ ev, ev ∈ events →
    match ev with
    | EvWriteText p _ => p = out ∨ p = Args.guesses_output args
    | EvOpenW p | EvWriteRow p _ => p = Args.rejects args
    | _ => True
    end) as Hall.
  { intros ev. unfold events.
    destruct (files σ !! Args.source args) as [text|] eqn:Hsrc.
    - rewrite (main_events upper lower zipf_frequency args σ text Hsrc).
      rewrite !elem_of_app. intros [H|[H|[H|H]]].
      + unfold oracle_events in H.
        apply list_elem_of_fmap in H as (? & -> & _). done.
      + apply elem_of_cons in H as [->|H]; [by left|].
        apply elem_of_cons in H as [->|H]; [by right|].
        by apply elem_of_nil in H.
      + destruct (list_truthy _); [|by apply elem_of_nil in H].
        unfold reject_events in H. apply elem_of_cons in H as [->|H]; [done|].
        apply list_elem_of_fmap in H as (? & -> & _). done.
      + unfold summary_events in H.
        repeat (apply elem_of_cons in H as [->|H]; [done|]).
        by apply elem_of_nil in H.
    - rewrite main_missing by done. simpl.
      rewrite (events_since_app σ σ []) by (by rewrite app_nil_r).
      by intros ?%elem_of_nil. }
  split; [intros p data H; apply (Hall _ H)|].
  split; [intros p H; apply (Hall _ H)|].
  split; [intros p line H; apply (Hall _ H)|].
  intros ev q H Hq. specialize (Hall ev H).
  destruct ev; simpl in Hq; try done; injection Hq as <-; tauto.
Qed.

Lemma summary_events_prints (args : Args.t) (scored : list WordScore) :
  ∃ lines : list str,
    summary_events args scored = EvPrint <$> lines ∧ length lines = 4%nat.
Proof. unfold summary_events. by eexists [_; _; _; _]. Qed.

(** X11. A run on an existing source returns, with exit status 0, and its
    events come in three phases: first one oracle call for each loaded word,
    then the file events, then four printed lines. So no file is written
    before every word is scored, and nothing is printed before the last
    write. *)
Theorem run_phases (upper lower : str → str)
    (zipf_frequency : str → str → float) (args : Args.t) (σ : world) (text : str) :
  files σ !! Args.source args = Some text →
  let run := main upper lower zipf_frequency args σ in
  run.1 = Ok tt ∧ exit_status run.1 = 0%Z ∧
  ∃ (calls writes : list event) (lines : list str),
    events_since σ run.2 = calls ++ writes ++ (EvPrint <$> lines) ∧
    forallb is_oracle_event calls = true ∧
    length calls = length (load_text upper text) ∧
    Forall (λ ev, is_Some (event_path ev)) writes ∧
    (2 ≤ length writes)%nat ∧
    length lines = 4%nat.
Proof.
  intros Hsrc run.
  assert (run.1 = Ok tt) as Hok
    by (by apply (main_returns upper lower zipf_frequency args σ text)).
  split; [done|]. split; [by rewrite Hok|].
  unfold run. rewrite (main_events upper lower zipf_frequency args σ text Hsrc).
  set (scored := scored_set lower zipf_frequency (load_text upper text)).
  destruct (summary_events_prints args scored) as (lines & -> & Hlen).
  set (report := if list_truthy (below (Args.threshold args) scored)
                 then reject_events (Args.rejects args)
                        (sorted_by float_lt freq (below (Args.threshold args) scored))
                 else []).
  set (w1 := EvWriteText (or_path (Args.output args) (Args.source args)) _).
  set (w2 := EvWriteText (Args.guesses_output args) _).
  exists (oracle_events lower (load_text upper text)), ([w1; w2] ++ report), lines.
  split; [by rewrite <- !app_assoc|].
  split.
  { unfold oracle_events. rewrite forallb_fmap. apply forallb_const_true. }
  split; [unfold oracle_events; by rewrite length_fmap|]. split.
  { apply Forall_app. split; [repeat constructor; by eexists|].
    unfold report. destruct (list_truthy _); [|constructor].
    unfold reject_events. constructor; [by eexists|].
    apply Forall_fmap, Forall_forall. intros row _. by eexists. }
  split; [rewrite length_app; cbn [length]; lia|done].
Qed.

(** X12. The counts of the summary are the sizes of the artifacts: the run
    prints four lines, in which "Words loaded" is the number of words
    loaded, "Kept" the number of words of the answer list, "Removed" the
    number of data rows of the report, and the last line names the path the
    answer list was written to; each count is written in decimal digits
    that denote it. *)
Theorem summary_counts (upper lower : str → str)
    (zipf_frequency : str → str → float) (args : Args.t) (σ : world) (text : str) :
  files σ !! Args.source args = Some text →
  let scored := scored_set lower zipf_frequency (load_text upper text) in
  let events := events_since σ (main upper lower zipf_frequency args σ).2 in
  let answers := sorted str_lt (word <$> at_least (Args.threshold args) scored) in
  let report := sorted_by float_lt freq (below (Args.threshold args) scored) in
  let out := or_path (Args.output args) (Args.source args) in
  ∃ loaded kept removed : str,
    List.filter is_print events =
      [ EvPrint (py "Words loaded: " ++ loaded);
        EvPrint (py "Kept: " ++ kept ++ py " (threshold >= " ++
                 format_f 2 (Args.threshold args) ++ py ")");
        EvPrint (py "Removed: " ++ removed ++ py " (details: " ++
                 Args.rejects args ++ py ")");
        EvPrint (py "Wrote curated list to: " ++ out) ] ∧
    forallb Char.isdigit (loaded ++ kept ++ removed) = true ∧
    digits_value loaded = N.of_nat (length (load_text upper text)) ∧
    digits_value kept = N.of_nat (length answers) ∧
    digits_value removed = N.of_nat (length report) ∧
    EvWriteText out (join [Char.LF] answers ++ [Char.LF]) ∈ events.
Proof.
  intros Hsrc scored events answers report out.
  eexists _, _, _. split.
  { unfold events.
    rewrite (main_events upper lower zipf_frequency args σ text Hsrc).
    fold scored. rewrite !List.filter_app.
    rewrite (filter_none _ (oracle_events _ _)); cycle 1.
    { unfold oracle_events. rewrite existsb_fmap. apply existsb_const_false. }
    rewrite (filter_none _ (if list_truthy _ then _ else _)); cycle 1.
    { destruct (list_truthy _); [|done].
      unfold reject_events. simpl. rewrite existsb_fmap. apply existsb_const_false. }
    unfold summary_events. reflexivity. }
  split.
  { rewrite !forallb_app. unfold str_of_N. by rewrite !uint_str_digits. }
  rewrite !digits_value_str_of_N.
  split; [unfold scored, scored_set; by rewrite length_fmap|].
  split; [unfold answers, sorted; by rewrite sorted_by_perm, length_fmap|].
  split; [unfold report; by rewrite sorted_by_perm|].
  by apply main_writes_answers.
Qed.

(** ** A final newline in the source *)

Lemma nonblank_lines_newline n cur s :
  (length s ≤ n)%nat →
  List.filter (λ w, str_truthy (strip w)) (splitlines_from cur (s ++ [Char.LF]))
  = List.filter (λ w, str_truthy (strip w)) (splitlines_from cur s).
Proof.
  revert cur s. induction n as [|n IH]; intros cur s Hn.
  - destruct s; [|simpl in Hn; lia]. by destruct cur.
  - destruct s as [|c rest]; [by destruct cur|].
    simpl in Hn. cbn [app splitlines_from].
    destruct (Char.islinebreak c) eqn:Hc.
    + destruct rest as [|c' rest'].
      * cbn [app]. destruct (N.eqb_spec c Char.CR) as [->|Hcr]; [done|].
        cbn [andb]. change (splitlines_from [] [Char.LF]) with [@nil N].
        change (splitlines_from [] []) with (@nil str).
        cbn [List.filter]. by destruct (str_truthy (strip (reverse cur))).
      * cbn [app]. destruct ((c =? Char.CR) && (c' =? Char.LF)).
        -- cbn [List.filter]. rewrite IH by (simpl in Hn; lia). done.
        -- cbn [List.filter].
           change (c' :: rest' ++ [Char.LF]) with ((c' :: rest') ++ [Char.LF]).
           rewrite (IH [] (c' :: rest')) by lia. done.
    + apply IH. lia.
Qed.

(** X13. A newline added at the end of the source makes no difference to
    the words the Loader returns. *)
Theorem final_newline_ignored (upper : str → str) (text : str) :
  load_text upper (text ++ [Char.LF]) = load_text upper text.
Proof.
  unfold load_text, splitlines.
  by rewrite (nonblank_lines_newline (length text)).
Qed.

(** * The further properties at concrete inputs *)

Lemma save_then_load_witness :
  forallb (normal ascii_upper) [py "BERRY"; py "APPLE"; py "ICE CREAM"] = true ∧
  ((save_words (py "list.txt") [py "BERRY"; py "APPLE"; py "ICE CREAM"];;
    load_words ascii_upper (py "list.txt")) empty_world).1
  = Ok [py "BERRY"; py "APPLE"; py "ICE CREAM"].
Proof.
  assert (forallb (normal ascii_upper) [py "BERRY"; py "APPLE"; py "ICE CREAM"]
          = true) as H by (vm_compute; reflexivity).
  split; [exact H|].
  rewrite (save_then_load ascii_upper (py "list.txt") _ empty_world H).
  reflexivity.
Defined.

Lemma blank_source_run_witness :
  files blank_world !! Args.source scenario_args = Some blank_source ∧
  forallb Char.isspace blank_source = true ∧
  List.filter is_write_text
    (events_since blank_world
       (main ascii_upper ascii_lower scenario_zipf scenario_args blank_world).2)
  = [EvWriteText (py "answers.txt") [Char.LF];
     EvWriteText (py "guesses.txt") [Char.LF]].
Proof.
  assert (files blank_world !! Args.source scenario_args = Some blank_source)
    as H by reflexivity.
  assert (forallb Char.isspace blank_source = true) as Hb by reflexivity.
  split; [exact H|]. split; [exact Hb|].
  destruct (blank_source_run ascii_upper ascii_lower scenario_zipf scenario_args
              blank_world blank_source H Hb) as [_ W].
  rewrite W. reflexivity.
Defined.

Lemma word_lists_order_independent_witness :
  files scenario_world !! Args.source scenario_args = Some scenario_source ∧
  files shuffled_world !! Args.source scenario_args = Some shuffled_source ∧
  load_text ascii_upper scenario_source ≡ₚ load_text ascii_upper shuffled_source ∧
  List.filter is_write_text
    (events_since scenario_world
       (main ascii_upper ascii_lower scenario_zipf scenario_args scenario_world).2)
  = List.filter is_write_text
      (events_since shuffled_world
         (main ascii_upper ascii_lower scenario_zipf scenario_args shuffled_world).2).
Proof.
  assert (files scenario_world !! Args.source scenario_args = Some scenario_source)
    as H1 by reflexivity.
  assert (files shuffled_world !! Args.source scenario_args = Some shuffled_source)
    as H2 by reflexivity.
  assert (load_text ascii_upper scenario_source
          ≡ₚ load_text ascii_upper shuffled_source) as Hp.
  { change (load_text ascii_upper scenario_source)
      with ([py "APPLE"; py "BERRY"] ++ [py "ZYZZX"]).
    change (load_text ascii_upper shuffled_source)
      with ([py "ZYZZX"] ++ [py "APPLE"; py "BERRY"]).
    apply Permutation_app_comm. }
  split; [exact H1|]. split; [exact H2|]. split; [exact Hp|].
  exact (word_lists_order_independent ascii_upper ascii_lower scenario_zipf
           scenario_args scenario_world shuffled_world scenario_source
           shuffled_source H1 H2 Hp).
Defined.

Lemma curated_source_fixed_point_witness :
  let σ1 :=
    (main ascii_upper ascii_lower scenario_zipf curate_args scenario_world).2 in
  let answers := [py "APPLE"; py "BERRY"] in
  forallb (normal ascii_upper) (load_text ascii_upper scenario_source) = true ∧
  files σ1 !! Args.source curate_args
    = Some (join [Char.LF] answers ++ [Char.LF]) ∧
  let run := main ascii_upper ascii_lower scenario_zipf curate_args σ1 in
  EvWriteText (py "words.txt") (join [Char.LF] answers ++ [Char.LF])
    ∈ events_since σ1 run.2 ∧
  List.filter is_report_event (events_since σ1 run.2) = [].
Proof.
  intros σ1 answers.
  assert (forallb (normal ascii_upper) (load_text ascii_upper scenario_source)
          = true) as Hn by (vm_compute; reflexivity).
  assert (files σ1 !! Args.source curate_args
          = Some (join [Char.LF]
                    (sorted str_lt
                       (word <$> at_least (Args.threshold curate_args)
                          (scored_set ascii_lower scenario_zipf
                             (load_text ascii_upper scenario_source))))
                  ++ [Char.LF])) as H1 by (vm_compute; reflexivity).
  split; [exact Hn|]. split; [exact H1|].
  destruct (curated_source_fixed_point ascii_upper ascii_lower scenario_zipf
              curate_args σ1 scenario_source Hn H1)
    as (_ & _ & _ & _ & W1 & W2).
  split; [exact W1|exact W2].
Defined.

Lemma rerun_over_source_witness :
  let σ1 := default_world in
  let σ2 :=
    (main ascii_upper ascii_lower scenario_zipf Args.defaults default_world).2 in
  files σ1 !! Args.source Args.defaults = Some scenario_source ∧
  forallb (normal ascii_upper) (load_text ascii_upper scenario_source) = true ∧
  files σ2 !! Args.source Args.defaults
    = Some (join [Char.LF] [py "APPLE"; py "BERRY"; py "ZYZZX"] ++ [Char.LF]) ∧
  List.filter is_write_text
    (events_since σ2 (main ascii_upper ascii_lower scenario_zipf Args.defaults σ2).2)
  = List.filter is_write_text
      (events_since σ1 (main ascii_upper ascii_lower scenario_zipf Args.defaults σ1).2).
Proof.
  intros σ1 σ2.
  assert (files σ1 !! Args.source Args.defaults = Some scenario_source)
    as H1 by reflexivity.
  assert (forallb (normal ascii_upper) (load_text ascii_upper scenario_source)
          = true) as Hn by (vm_compute; reflexivity).
  assert (files σ2 !! Args.source Args.defaults
          = Some (join [Char.LF]
                    (sorted str_lt (load_text ascii_upper scenario_source))
                  ++ [Char.LF])) as H2 by (vm_compute; reflexivity).
  split; [exact H1|]. split; [exact Hn|]. split; [exact H2|].
  destruct (rerun_over_source ascii_upper ascii_lower scenario_zipf
              Args.defaults σ1 σ2 scenario_source H1 Hn H2) as [_ W].
  exact W.
Defined.

Lemma report_row_injective_witness :
  Csv.render_row [py "A,B"; format_f 3 (float_of_decimal 0 2)]
  = Csv.render_row [py "A,B"; format_f 3 (S754_zero false)] ∧
  py "A,B" = py "A,B".
Proof.
  assert (Csv.render_row [py "A,B"; format_f 3 (float_of_decimal 0 2)]
          = Csv.render_row [py "A,B"; format_f 3 (S754_zero false)]) as H
    by reflexivity.
  split; [exact H|].
  exact (proj1 (report_row_injective _ _ _ _ H)).
Defined.

Lemma nothing_lost_witness :
  let ws := load_text ascii_upper repeated_source in
  let scored := scored_set ascii_lower scenario_zipf ws in
  files repeated_world !! Args.source scenario_args = Some repeated_source ∧
  is_nan (Args.threshold scenario_args) = false ∧
  Forall (λ it, is_nan (freq it) = false) scored ∧
  ws ≡ₚ sorted str_lt (word <$> at_least (Args.threshold scenario_args) scored)
        ++ (word <$> sorted_by float_lt freq
                       (below (Args.threshold scenario_args) scored)).
Proof.
  intros ws scored.
  assert (files repeated_world !! Args.source scenario_args = Some repeated_source)
    as H by reflexivity.
  assert (is_nan (Args.threshold scenario_args) = false) as Ht by reflexivity.
  assert (Forall (λ it, is_nan (freq it) = false) scored) as Hnum
    by (repeat constructor).
  split; [exact H|]. split; [exact Ht|]. split; [exact Hnum|].
  destruct (nothing_lost ascii_upper ascii_lower scenario_zipf scenario_args
              repeated_world repeated_source H Ht Hnum) as (_ & _ & W & _).
  exact W.
Defined.

Lemma dropped_monotone_witness :
  float_ge (float_of_decimal 5 0) (float_of_decimal 34 1) = true ∧
  (length (below (float_of_decimal 34 1)
             (scored_set ascii_lower scenario_zipf
                [py "APPLE"; py "BERRY"; py "ZYZZX"]))
   ≤ length (below (float_of_decimal 5 0)
               (scored_set ascii_lower scenario_zipf
                  [py "APPLE"; py "BERRY"; py "ZYZZX"])))%nat.
Proof.
  assert (float_ge (float_of_decimal 5 0) (float_of_decimal 34 1) = true) as H
    by reflexivity.
  split; [exact H|].
  destruct (dropped_monotone (float_of_decimal 34 1) (float_of_decimal 5 0)
              (scored_set ascii_lower scenario_zipf
                 [py "APPLE"; py "BERRY"; py "ZYZZX"]) H) as (_ & W & _).
  exact W.
Defined.

Lemma format_f_nearest_witness :
  is_finite (float_of_decimal 532 2) = true ∧ 3%nat ≠ O ∧
  ∃ ip fp : str,
    format_f 3 (float_of_decimal 532 2)
      = sign_str (sign_bit (float_of_decimal 532 2)) ++ ip ++ Char.DOT :: fp ∧
    length fp = 3%nat.
Proof.
  assert (is_finite (float_of_decimal 532 2) = true) as H by reflexivity.
  assert (3%nat ≠ O) as Hp by discriminate.
  split; [exact H|]. split; [exact Hp|].
  destruct (format_f_nearest 3 (float_of_decimal 532 2) H Hp)
    as (ip & fp & E & _ & _ & Hl & _).
  exists ip, fp. split; [exact E|exact Hl].
Defined.

Lemma writes_only_outputs_witness :
  let events :=
    events_since scenario_world
      (main ascii_upper ascii_lower scenario_zipf scenario_args scenario_world).2 in
  EvOpenW (py "rejects.csv") ∈ events ∧
  py "rejects.csv" = Args.rejects scenario_args.
Proof.
  intros events.
  assert (EvOpenW (py "rejects.csv") ∈ events) as H.
  { apply list_elem_of_In. vm_compute.
    repeat (first [left; reflexivity | right]). }
  split; [exact H|].
  destruct (writes_only_outputs ascii_upper ascii_lower scenario_zipf scenario_args
              scenario_world) as (_ & W & _).
  exact (W _ H).
Defined.

Lemma run_phases_witness :
  files scenario_world !! Args.source scenario_args = Some scenario_source ∧
  exit_status
    (main ascii_upper ascii_lower scenario_zipf scenario_args scenario_world).1
  = 0%Z.
Proof.
  assert (files scenario_world !! Args.source scenario_args = Some scenario_source)
    as H by reflexivity.
  split; [exact H|].
  destruct (run_phases ascii_upper ascii_lower scenario_zipf scenario_args
              scenario_world scenario_source H) as (_ & W & _).
  exact W.
Defined.

Lemma summary_counts_witness :
  files repeated_world !! Args.source scenario_args = Some repeated_source ∧
  ∃ loaded kept removed : str,
    digits_value loaded = 3 ∧ digits_value kept = 3 ∧ digits_value removed = 0 ∧
    List.filter is_print
      (events_since repeated_world
         (main ascii_upper ascii_lower scenario_zipf scenario_args repeated_world).2)
    = [ EvPrint (py "Words loaded: " ++ loaded);
        EvPrint (py "Kept: " ++ kept ++ py " (threshold >= " ++
                 format_f 2 (Args.threshold scenario_args) ++ py ")");
        EvPrint (py "Removed: " ++ removed ++ py " (details: " ++
                 Args.rejects scenario_args ++ py ")");
        EvPrint (py "Wrote curated list to: " ++ py "answers.txt") ].
Proof.
  assert (files repeated_world !! Args.source scenario_args = Some repeated_source)
    as H by reflexivity.
  split; [exact H|].
  destruct (summary_counts ascii_upper ascii_lower scenario_zipf scenario_args
              repeated_world repeated_source H)
    as (loaded & kept & removed & E & _ & H1 & H2 & H3 & _).
  exists loaded, kept, removed.
  split; [exact H1|]. split; [exact H2|]. split; [exact H3|exact E].
Defined.
